(** * A shallow embedding of the m4 macro processor (m4.c) and its properties

    Conventions of the embedding.
    - A byte of a buffer is a [Z] in [0, 255].  Where the C code reads a
      [char] back as an [int] the value is the platform's signed [char]
      ([schar]), as on x86-64 Linux, where [char] is signed.
    - A [struct buf] holds its [i] filled bytes [a[0..i-1]] as a list in
      index order; the top of the input stack is the last element.
    - A C string is a list of bytes; [cstr] cuts it at the first NUL, as
      [strlen] does.
    - [size_t] is 64 bits wide: [SIZE_MAX = 2^64 - 1].
    - The character classes are those of the "C" locale: [isalpha] and the
      like hold only for ASCII letters and digits (any other [int] value,
      negative ones included, is not in the class). *)

From Stdlib Require Import String Ascii ZArith List Bool Lia.
Import ListNotations.
Open Scope Z_scope.

(** ** Basic data *)

Definition EOF : Z := -1.
Definition SIZE_MAX : Z := 2 ^ 64 - 1.
Definition HASH_TABLE_SIZE : Z := 16384.
Definition INIT_BUF_SIZE : Z := 512.

(** The value of a stored [char] read back as an [int] (signed [char]). *)
Definition schar (b : Z) : Z := if 128 <=? b then b - 256 else b.

(** Conversion of an [int] to the [char] stored in a buffer. *)
Definition to_char (ch : Z) : Z := ch mod 256.

Definition isdigit (x : Z) : bool := (48 <=? x) && (x <=? 57).
Definition isupper (x : Z) : bool := (65 <=? x) && (x <=? 90).
Definition islower (x : Z) : bool := (97 <=? x) && (x <=? 122).
Definition isalpha (x : Z) : bool := isupper x || islower x.
Definition isalnum (x : Z) : bool := isalpha x || isdigit x.
Definition isgraph (x : Z) : bool := (33 <=? x) && (x <=? 126).

(** Bytes of a string literal of the source. *)
Definition bytes (s : string) : list Z :=
  map (fun a => Z.of_nat (nat_of_ascii a)) (list_ascii_of_string s).

(** The C string held by a buffer: its bytes up to the first NUL. *)
Fixpoint cstr (s : list Z) : list Z :=
  match s with
  | [] => []
  | c :: r => if c =? 0 then [] else c :: cstr r
  end.

Fixpoint bytes_eqb (a b : list Z) : bool :=
  match a, b with
  | [], [] => true
  | x :: a', y :: b' => (x =? y) && bytes_eqb a' b'
  | _, _ => false
  end.

(** [strcmp(a, b) == 0] *)
Definition streq (a b : list Z) : bool := bytes_eqb (cstr a) (cstr b).

(** ** Symbol table: [struct entry] and the chained hash table *)

Record entry := mk_entry { e_name : list Z; e_def : option (list Z) }.

(** [struct entry **ht]: bucket [h] holds its chain, head first
    (an empty list is a NULL head). *)
Definition table := Z -> list entry.

Definition empty_table : table := fun _ => [].

Definition set_bucket (ht : table) (h : Z) (c : list entry) : table :=
  fun k => if k =? h then c else ht k.

(** [hash_str]: djb2 variant [h = h * 33 ^ c] over the unsigned bytes,
    in [size_t] arithmetic, reduced modulo the bucket count. *)
Fixpoint hash_loop (h : Z) (s : list Z) : Z :=
  match s with
  | [] => h
  | c :: r =>
      if c =? 0 then h
      else hash_loop (Z.lxor ((h * 33) mod 2 ^ 64) c) r
  end.

Definition hash_str (s : list Z) : Z := hash_loop 5381 s mod HASH_TABLE_SIZE.

Fixpoint chain_lookup (name : list Z) (c : list entry) : option entry :=
  match c with
  | [] => None
  | e :: r => if streq name (e_name e) then Some e else chain_lookup name r
  end.

(** [lookup_entry] *)
Definition lookup_entry (ht : table) (name : list Z) : option entry :=
  chain_lookup name (ht (hash_str name)).

(** [get_def] *)
Definition get_def (ht : table) (name : list Z) : option (list Z) :=
  match lookup_entry ht name with
  | None => None
  | Some e => e_def e
  end.

(** The update branch of [upsert_entry]: the found entry's definition is
    replaced (the chain is walked as in [lookup_entry], so the first entry
    of that name is the one updated). *)
Fixpoint chain_update (name : list Z) (def : option (list Z)) (c : list entry)
  : list entry :=
  match c with
  | [] => []
  | e :: r =>
      if streq name (e_name e) then mk_entry (e_name e) (option_map cstr def) :: r
      else e :: chain_update name def r
  end.

(** [upsert_entry] (allocation is taken to succeed): insert at the chain
    head with copies of the name and the optional definition, or replace
    the definition of the entry found. *)
Definition upsert_entry (ht : table) (name : list Z) (def : option (list Z))
  : table :=
  let h := hash_str name in
  match lookup_entry ht name with
  | None => set_bucket ht h (mk_entry (cstr name) (option_map cstr def) :: ht h)
  | Some _ => set_bucket ht h (chain_update name def (ht h))
  end.

(** The search loop of [delete_entry]: the position of the first entry of
    that name, with the entries before it ([prev] is the last of them). *)
Fixpoint chain_find (name : list Z) (c : list entry)
  : option (list entry * entry * list entry) :=
  match c with
  | [] => None
  | e :: r =>
      if streq name (e_name e) then Some ([], e, r)
      else match chain_find name r with
           | None => None
           | Some (pre, f, post) => Some (e :: pre, f, post)
           end
  end.

(** [delete_entry]: [Some ht'] on success, [None] (return 1) when the name
    is absent.  When [prev != NULL] the previous entry is linked around the
    found one; when the found entry is the head ([prev == NULL]) the bucket
    head is set to NULL. *)
Definition delete_entry (ht : table) (name : list Z) : option table :=
  let h := hash_str name in
  match chain_find name (ht h) with
  | None => None
  | Some ([], _, _) => Some (set_bucket ht h [])
  | Some (pre, _, post) => Some (set_bucket ht h (pre ++ post))
  end.

(** ** Growable buffers with their capacity ([struct buf])

    Memory allocation is an oracle: [realloc_ok n] tells whether
    [realloc] to [n] bytes succeeds. *)

Module Buf.

Record buf := mk_buf { a : list Z; s : Z }.

(** [BUF_FREE_SIZE(b)] *)
Definition free_size (b : buf) : Z := s b - Z.of_nat (length (a b)).

(** [MOF(a, b)] and [AOF(a, b)] *)
Definition MOF (x y : Z) : bool := negb (x =? 0) && (SIZE_MAX / x <? y).
Definition AOF (x y : Z) : bool := SIZE_MAX - y <? x.

Section WithAlloc.

Variable realloc_ok : Z -> bool.

(** [grow_buf]: [None] is the failure return 1. *)
Definition grow_buf (b : buf) (will_use : Z) : option buf :=
  if will_use <=? free_size b then Some b
  else if MOF (s b) 2 then None
  else let new_s := s b * 2 in
  if AOF new_s will_use then None
  else let new_s := new_s + will_use in
  if realloc_ok new_s then Some (mk_buf (a b) new_s) else None.

(** [ungetch]: the returned [int] is the assigned [char] (or [EOF] when
    growing fails). *)
Definition ungetch (b : buf) (ch : Z) : buf * Z :=
  let store b := (mk_buf (a b ++ [to_char ch]) (s b), schar (to_char ch)) in
  if Z.of_nat (length (a b)) =? s b then
    match grow_buf b 1 with
    | None => (b, EOF)
    | Some b' => store b'
    end
  else store b.

(** The loop of [ungetstr] over [s[len-1], ..., s[0]]: the bytes still to
    push are given last one first. *)
Fixpoint ungetstr_loop (b : buf) (rev_s : list Z) : buf * Z :=
  match rev_s with
  | [] => (b, 0)
  | c :: r =>
      let (b', x) := ungetch b (schar c) in
      if x =? EOF then (b', 1) else ungetstr_loop b' r
  end.

(** [ungetstr] *)
Definition ungetstr (b : buf) (str : list Z) : buf * Z :=
  ungetstr_loop b (rev (cstr str)).

(** [put_str]: append the C string [str]; the returned [int] is 0 on
    success and 1 when growing fails. *)
Definition put_str (b : buf) (str : list Z) : buf * Z :=
  let len := Z.of_nat (length (cstr str)) in
  let copy b := (mk_buf (a b ++ cstr str) (s b), 0) in
  if free_size b <? len then
    match grow_buf b len with
    | None => (b, 1)
    | Some b' => copy b'
    end
  else copy b.

(** [buf_dump_buf(dst, src)]: append [src] to [dst] and empty [src]. *)
Definition buf_dump_buf (dst src : buf) : buf * buf * Z :=
  let len := Z.of_nat (length (a src)) in
  let copy d := (mk_buf (a d ++ a src) (s d), mk_buf [] (s src), 0) in
  if free_size dst <? len then
    match grow_buf dst len with
    | None => (dst, src, 1)
    | Some d' => copy d'
    end
  else copy dst.

End WithAlloc.

(** The readable contents of an input stream buffer, next byte first. *)
Definition readable (b : buf) : list Z := rev (a b).

End Buf.

(** ** Engine state

    In the engine allocation is taken to succeed; allocation failure is
    modelled on [Buf] only.  Writes to [stdout] and [stderr] succeed and
    reading standard input raises no I/O error. *)

(** [struct mcall]: [m_args] is [arg_buf[0..9]], [None] a NULL buffer,
    [Some b] a buffer holding the bytes [b]. *)
Record mcall := mk_mcall {
  m_name : list Z;
  m_def : option (list Z);
  m_bd : Z;
  m_act_arg : Z;
  m_args : list (option (list Z))
}.

Record state := mk_state {
  input : list Z;                  (* [input]: the pushback stack *)
  stdin : list Z;                  (* bytes still available on stdin *)
  read_stdin : bool;
  files : list (list Z * list Z);  (* regular files: path, contents *)
  ht : table;
  quote_on : bool;
  quote_depth : Z;
  act_div : Z;
  diversion : list (list Z);       (* [diversion[0..10]] *)
  stack : list mcall;              (* head is the innermost call *)
  left_quote : Z;
  right_quote : Z;
  stdout : list Z;
  stderr : list Z
}.

Definition set_input st i := mk_state i (stdin st) (read_stdin st) (files st)
  (ht st) (quote_on st) (quote_depth st) (act_div st) (diversion st) (stack st)
  (left_quote st) (right_quote st) (stdout st) (stderr st).
Definition set_stdin st i := mk_state (input st) i (read_stdin st) (files st)
  (ht st) (quote_on st) (quote_depth st) (act_div st) (diversion st) (stack st)
  (left_quote st) (right_quote st) (stdout st) (stderr st).
Definition set_ht st h := mk_state (input st) (stdin st) (read_stdin st) (files st)
  h (quote_on st) (quote_depth st) (act_div st) (diversion st) (stack st)
  (left_quote st) (right_quote st) (stdout st) (stderr st).
Definition set_quote st on d := mk_state (input st) (stdin st) (read_stdin st)
  (files st) (ht st) on d (act_div st) (diversion st) (stack st)
  (left_quote st) (right_quote st) (stdout st) (stderr st).
Definition set_act_div st n := mk_state (input st) (stdin st) (read_stdin st)
  (files st) (ht st) (quote_on st) (quote_depth st) n (diversion st) (stack st)
  (left_quote st) (right_quote st) (stdout st) (stderr st).
Definition set_diversion st d := mk_state (input st) (stdin st) (read_stdin st)
  (files st) (ht st) (quote_on st) (quote_depth st) (act_div st) d (stack st)
  (left_quote st) (right_quote st) (stdout st) (stderr st).
Definition set_stack st s := mk_state (input st) (stdin st) (read_stdin st)
  (files st) (ht st) (quote_on st) (quote_depth st) (act_div st) (diversion st) s
  (left_quote st) (right_quote st) (stdout st) (stderr st).
Definition set_quotes st l r := mk_state (input st) (stdin st) (read_stdin st)
  (files st) (ht st) (quote_on st) (quote_depth st) (act_div st) (diversion st)
  (stack st) l r (stdout st) (stderr st).
Definition set_stdout st o := mk_state (input st) (stdin st) (read_stdin st)
  (files st) (ht st) (quote_on st) (quote_depth st) (act_div st) (diversion st)
  (stack st) (left_quote st) (right_quote st) o (stderr st).
Definition set_stderr st e := mk_state (input st) (stdin st) (read_stdin st)
  (files st) (ht st) (quote_on st) (quote_depth st) (act_div st) (diversion st)
  (stack st) (left_quote st) (right_quote st) (stdout st) e.

(** ** A state and exit monad for the body of [main]

    [Ok] continues; [Eoi] is [goto end_of_input]; [Quit] is [QUIT]
    ([ret = 1; goto clean_up]); [Undef] is an access out of the bounds of
    an array (undefined behaviour in C). *)

Inductive res (A : Type) :=
| Ok (x : A) (st : state)
| Eoi (st : state)
| Quit (st : state)
| Undef (st : state).
Arguments Ok {A}. Arguments Eoi {A}. Arguments Quit {A}. Arguments Undef {A}.

Definition M (A : Type) := state -> res A.

Definition ret {A} (x : A) : M A := fun st => Ok x st.
Definition bind {A B} (m : M A) (k : A -> M B) : M B := fun st =>
  match m st with
  | Ok x st' => k x st'
  | Eoi st' => Eoi st'
  | Quit st' => Quit st'
  | Undef st' => Undef st'
  end.

Notation "x <- m ;; k" := (bind m (fun x => k))
  (at level 61, m at next level, right associativity).
Notation "m ;;; k" := (bind m (fun _ => k))
  (at level 61, right associativity).

Definition get : M state := fun st => Ok st st.
Definition modify (f : state -> state) : M unit := fun st => Ok tt (f st).
Definition skip : M unit := ret tt.
Definition quit {A} : M A := fun st => Quit st.
Definition undef {A} : M A := fun st => Undef st.

(** [EQUIT(m)]: the message and a newline go to stderr, then [QUIT]. *)
Definition equit {A} (msg : string) : M A := fun st =>
  Quit (set_stderr st (stderr st ++ bytes msg ++ [10])).

(** ** Input stream and tokenizer *)

(** The buffer variant of [ungetch] used by the engine: store the byte and
    return the [char] read back as an [int]. *)
Definition unget (b : list Z) (ch : Z) : list Z * Z :=
  (b ++ [to_char ch], schar (to_char ch)).

(** [getch(input, read_stdin)] *)
Definition getch (st : state) : Z * state :=
  match rev (input st) with
  | b :: r => (schar b, set_input st (rev r))
  | [] =>
      if read_stdin st then
        match stdin st with
        | c :: r => (c, set_stdin st r)
        | [] => (EOF, st)
        end
      else (EOF, st)
  end.

(** The bytes still readable, next one first. *)
Definition readable (st : state) : list Z :=
  rev (input st) ++ (if read_stdin st then stdin st else []).

Inductive gw := GW_tok (tok : list Z) (st : state) | GW_eof (st : state) | GW_err (st : state).

Definition is_id_start (x : Z) : bool := isalpha x || (x =? 95).
Definition is_id_char (x : Z) : bool := isalnum x || (x =? 95).

(** The [while (1)] loop of [getword] collecting an identifier.  Every
    round consumes a byte, so [fuel] one more than the readable bytes is
    never exhausted. *)
Fixpoint ident_loop (fuel : nat) (tok : list Z) (st : state) : gw :=
  match fuel with
  | O => GW_eof st
  | S f =>
      let (x, st1) := getch st in
      if x =? EOF then GW_eof st1
      else if negb (is_id_char x) then
        let (inp, r) := unget (input st1) x in
        if r =? EOF then GW_err (set_input st1 inp)
        else GW_tok tok (set_input st1 inp)
      else
        let (tok', r) := unget tok x in
        if r =? EOF then GW_err st1 else ident_loop f tok' st1
  end.

(** [getword]: the token is returned without its NUL terminator (the NUL
    is always stored, so [TS] is [cstr tok]). *)
Definition getword (st : state) : gw :=
  let (x, st1) := getch st in
  if x =? EOF then GW_eof st1
  else
    let (tok, r) := unget [] x in
    if r =? EOF then GW_eof st1
    else if is_id_start x then
      ident_loop (S (length (readable st1))) tok st1
    else GW_tok tok st1.

(** [READ_TOKEN] *)
Definition read_token : M (list Z) := fun st =>
  match getword st with
  | GW_tok t st' => Ok t st'
  | GW_eof st' => Eoi st'
  | GW_err st' => Quit st'
  end.

(** The loop of [ungetstr(input, s)] over [s[len-1], ..., s[0]]. *)
Fixpoint unget_loop (rev_s : list Z) : M unit :=
  match rev_s with
  | [] => skip
  | c :: r => fun st =>
      let (inp, x) := unget (input st) (schar c) in
      if x =? EOF then Quit (set_input st inp)
      else unget_loop r (set_input st inp)
  end.

(** [if (ungetstr(input, s)) QUIT;] *)
Definition unget_str (s : list Z) : M unit := unget_loop (rev (cstr s)).

(** ** Output sinks *)

(** [DIV(n)] *)
Definition div_at (st : state) (n : Z) : list Z := nth (Z.to_nat n) (diversion st) [].

Fixpoint replace_nth {A} (l : list A) (n : nat) (x : A) : list A :=
  match l, n with
  | [], _ => []
  | _ :: r, O => x :: r
  | y :: r, S k => y :: replace_nth r k x
  end.

Definition set_div (st : state) (n : Z) (b : list Z) : state :=
  set_diversion st (replace_nth (diversion st) (Z.to_nat n) b).

(** [OUT_DIV(n)]: write diversion [n] to stdout and empty it. *)
Definition out_div (n : Z) : M unit :=
  modify (fun st => set_div (set_stdout st (stdout st ++ div_at st n)) n []).

(** [UNDIVERT_ALL] *)
Definition undivert_all : M unit :=
  out_div 0 ;;; out_div 1 ;;; out_div 2 ;;; out_div 3 ;;; out_div 4 ;;;
  out_div 5 ;;; out_div 6 ;;; out_div 7 ;;; out_div 8 ;;; out_div 9.

(** [ARG(n)] of a frame, read as a C string. *)
Definition arg_buf (m : mcall) (n : Z) : option (list Z) := nth (Z.to_nat n) (m_args m) None.
Definition ARG (m : mcall) (n : Z) : list Z :=
  match arg_buf m n with None => [] | Some b => cstr b end.

Definition set_arg (m : mcall) (n : Z) (b : option (list Z)) : mcall :=
  mk_mcall (m_name m) (m_def m) (m_bd m) (m_act_arg m)
    (replace_nth (m_args m) (Z.to_nat n) b).

(** [put_str(output, s)], with [output] as [SET_OUTPUT] sets it: the active
    argument buffer of the top frame, or the active diversion when the
    stack is empty.  (Every change of [stack] or [act_div] in [main] is
    followed by [SET_OUTPUT], so the pointer always names this sink.) *)
Definition put_out (s : list Z) : M unit := modify (fun st =>
  match stack st with
  | [] => set_div st (act_div st) (div_at st (act_div st) ++ cstr s)
  | m :: r =>
      let b := match arg_buf m (m_act_arg m) with Some b => b | None => [] end in
      set_stack st (set_arg m (m_act_arg m) (Some (b ++ cstr s)) :: r)
  end).

(** [ISMACRO(s)]: the entry, when [s] starts like an identifier and is
    found. *)
Definition ismacro (h : table) (s : list Z) : option entry :=
  let c := schar (hd 0 (cstr s)) in
  if isalpha c || (c =? 95) then lookup_entry h s else None.

(** [WS(s)] *)
Definition WS (s : list Z) : bool :=
  streq s [32] || streq s [9] || streq s [10] || streq s [13].

Definition readable_len (st : state) : nat := length (readable st).

(** The [do READ_TOKEN(next_token); while (WS(NTS));] loop (each round
    consumes input, so the fuel is never exhausted). *)
Fixpoint eat_ws_loop (fuel : nat) : M (list Z) :=
  match fuel with
  | O => read_token
  | S f => nt <- read_token ;; if WS nt then eat_ws_loop f else ret nt
  end.

(** [EAT_WS] *)
Definition EAT_WS : M unit := fun st =>
  (nt <- eat_ws_loop (S (readable_len st)) ;; unget_str nt) st.

Fixpoint dnl_loop (fuel : nat) : M unit :=
  match fuel with
  | O => nt <- read_token ;; skip
  | S f => nt <- read_token ;; if streq nt [10] then skip else dnl_loop f
  end.

(** [DNL] *)
Definition DNL : M unit := fun st => dnl_loop (S (readable_len st)) st.

(** [snprintf(num, NUM_SIZE, "%lu", n)] for [0 <= n < 2^64]. *)
Fixpoint dec_aux (fuel : nat) (n : Z) (acc : list Z) : list Z :=
  match fuel with
  | O => acc
  | S f =>
      let acc' := (48 + n mod 10) :: acc in
      if n <? 10 then acc' else dec_aux f (n / 10) acc'
  end.
Definition dec (n : Z) : list Z := dec_aux 24 n [].

(** [DIVNUM] *)
Definition DIVNUM : M unit := fun st =>
  unget_str (if act_div st =? 10 then bytes "-1" else dec (act_div st)) st.

(** [str_to_num]: [None] is the failure return 1. *)
Fixpoint stn_loop (n len : Z) (s : list Z) : option Z :=
  match s with
  | [] => if len =? 0 then None else Some n
  | ch :: r =>
      let c := schar ch in
      if isdigit c then
        if Buf.MOF n 10 then None
        else if Buf.AOF (n * 10) (c - 48) then None
        else stn_loop (n * 10 + (c - 48)) (len + 1) r
      else None
  end.
Definition str_to_num (s : list Z) : option Z := stn_loop 0 0 (cstr s).

(** [strip_def] *)
Fixpoint strip_def (d : list Z) : list Z :=
  match d with
  | [] => []
  | ch :: r =>
      if ch =? 0 then []
      else if ch =? 36 then
        match r with
        | h :: r' => if isdigit (schar h) && negb (h =? 48) then strip_def r'
                     else ch :: strip_def r
        | [] => [ch]
        end
      else ch :: strip_def r
  end.

(** [sub_args]: the definition with [$1]..[$9] replaced by the whole
    contents of the argument buffers ([memcpy] of [b->i] bytes). *)
Fixpoint sub_args (d : list Z) (args : list (option (list Z))) : list Z :=
  match d with
  | [] => []
  | ch :: r =>
      if ch =? 0 then []
      else if ch =? 36 then
        match r with
        | h :: r' =>
            if isdigit (schar h) && negb (h =? 48) then
              match nth (Z.to_nat (h - 48)) args None with
              | Some b => b ++ sub_args r' args
              | None => sub_args r' args
              end
            else ch :: sub_args r args
        | [] => [ch]
        end
      else ch :: sub_args r args
  end.

(** The loop [while (stack->arg_buf[j] != NULL && j < 10)] of
    [terminate_args], from [j = 1]: [arg_buf[j]] is read before [j < 10] is
    tested, and a read outside the ten slots of [m_args] is [None]
    (undefined behaviour).  Each allocated buffer gets a NUL appended.  The
    loop runs at most ten rounds ([j = 1..10]). *)
Fixpoint terminate_loop (fuel j : nat) (args : list (option (list Z)))
  : option (list (option (list Z))) :=
  match fuel with
  | O => Some args
  | S f =>
      match nth_error args j with
      | None => None
      | Some None => Some args
      | Some (Some b) =>
          if (j <? 10)%nat then terminate_loop f (S j) (replace_nth args j (Some (b ++ [0])))
          else Some args
      end
  end.

(** [terminate_args(stack)] on the frame [m]. *)
Definition terminate_args (m : mcall) : option mcall :=
  match terminate_loop 10 1 (m_args m) with
  | None => None
  | Some args => Some (mk_mcall (m_name m) (m_def m) (m_bd m) (m_act_arg m) args)
  end.

(** The loop [while (m->arg_buf[j] != NULL && j < 10)] of [free_mcall],
    from [j = 1]: the same reads as [terminate_loop]; [false] is a read
    outside the ten slots (undefined behaviour). *)
Fixpoint free_loop (fuel j : nat) (args : list (option (list Z))) : bool :=
  match fuel with
  | O => true
  | S f =>
      match nth_error args j with
      | None => false
      | Some None => true
      | Some (Some _) => if (j <? 10)%nat then free_loop f (S j) args else true
      end
  end.

(** [free_mcall(m)]: [false] when it reads outside [arg_buf]. *)
Definition free_mcall (m : mcall) : bool := free_loop 10 1 (m_args m).

(** [free_stack(stack)]: [free_mcall] on every frame. *)
Definition free_stack (sk : list mcall) : bool := forallb free_mcall sk.

(** ** Helpers of the built-in macros *)

Definition UCHAR_MAX : Z := 255.

(** The transliteration map [int map[UCHAR_MAX]]: reads and writes at an
    index outside the array are [None] (undefined behaviour). *)
Definition map_get (mp : list Z) (k : Z) : option Z := nth_error mp (Z.to_nat k).
Definition map_set (mp : list Z) (k : Z) (v : Z) : option (list Z) :=
  if (Z.to_nat k <? length mp)%nat then Some (replace_nth mp (Z.to_nat k) v) else None.

(** [for (k = 0; k < UCHAR_MAX; k++) *(map + k) = -1;] *)
Definition map_init : list Z := repeat (-1) (Z.to_nat UCHAR_MAX).

(** [while ((uc = *p++) && (uc2 = *q++)) ...]: returns the map and the
    bytes of [p] from the [uc] at which the loop stopped. *)
Fixpoint tl_pairs (mp : list Z) (p q : list Z) : option (list Z * list Z) :=
  match p, q with
  | [], _ => Some (mp, [])
  | _ :: _, [] => Some (mp, p)
  | uc :: p', uc2 :: q' =>
      match map_get mp uc with
      | None => None
      | Some x =>
          if x =? -1 then
            match map_set mp uc uc2 with
            | None => None
            | Some mp' => tl_pairs mp' p' q'
            end
          else tl_pairs mp p' q'
      end
  end.

(** [while (uc != '\0') { *(map + uc) = '\0'; uc = *p++; }] *)
Fixpoint tl_rest (mp : list Z) (p : list Z) : option (list Z) :=
  match p with
  | [] => Some mp
  | uc :: p' =>
      match map_set mp uc 0 with
      | None => None
      | Some mp' => tl_rest mp' p'
      end
  end.

(** The application loop over [ARG(1)]. *)
Fixpoint tl_apply (mp : list Z) (s : list Z) : option (list Z) :=
  match s with
  | [] => Some []
  | uc :: s' =>
      match map_get mp uc, tl_apply mp s' with
      | Some x, Some r =>
          if x =? -1 then Some (uc :: r)
          else if negb (x =? 0) then Some (to_char x :: r)
          else Some r
      | _, _ => None
      end
  end.

(** The map built by a [translit] call from [ARG(2)] and [ARG(3)]. *)
Definition translit_map (from to : list Z) : option (list Z) :=
  match tl_pairs map_init (cstr from) (cstr to) with
  | None => None
  | Some (mp, p) => tl_rest mp p
  end.

(** The [translit] result pushed back, [None] on an out-of-bounds access. *)
Definition translit (s from to : list Z) : option (list Z) :=
  match translit_map from to with
  | None => None
  | Some mp => tl_apply mp (cstr s)
  end.

Fixpoint is_prefix (n h : list Z) : bool :=
  match n, h with
  | [], _ => true
  | x :: n', y :: h' => (x =? y) && is_prefix n' h'
  | _, _ => false
  end.

(** [strstr]: the offset of the first occurrence. *)
Fixpoint strstr_from (hay needle : list Z) (i : nat) : option nat :=
  if is_prefix needle hay then Some i
  else match hay with
       | [] => None
       | _ :: r => strstr_from r needle (S i)
       end.
Definition strstr (hay needle : list Z) : option nat :=
  strstr_from (cstr hay) (cstr needle) 0.

Definition nonempty (s : list Z) : bool :=
  match cstr s with [] => false | _ => true end.

(** The loop [for (k = ..; k < 10; ++k) if (ARG(k)[0] != '\0') ...] of the
    arithmetic built-ins: [inl msg] is an [EQUIT(msg)]. *)
Fixpoint fold_args (m : mcall) (bad : string) (f : Z -> Z -> string + Z)
  (ks : list Z) (w : Z) : string + Z :=
  match ks with
  | [] => inr w
  | k :: r =>
      if nonempty (ARG m k) then
        match str_to_num (ARG m k) with
        | None => inl bad
        | Some n =>
            match f w n with
            | inl e => inl e
            | inr w' => fold_args m bad f r w'
            end
        end
      else fold_args m bad f r w
  end.

Definition args_from (k : Z) : list Z := map Z.of_nat (seq (Z.to_nat k) (Z.to_nat (10 - k))).

Definition add_step (w n : Z) : string + Z :=
  if Buf.AOF w n then inl "add: Integer overflow"%string else inr (w + n).
Definition mult_step (w n : Z) : string + Z :=
  if Buf.MOF w n then inl "mult: Integer overflow"%string else inr (w * n).
Definition sub_step (w n : Z) : string + Z :=
  if w <? n then inl "sub: Integer underflow"%string else inr (w - n).
Definition div_step (w n : Z) : string + Z :=
  if n =? 0 then inl "div: Divide by zero"%string else inr (w / n).
Definition mod_step (w n : Z) : string + Z :=
  if n =? 0 then inl "mod: Modulo by zero"%string else inr (w mod n).

(** [add] and [mult]: fold over arguments 1..9. *)
Definition bi_add (m : mcall) : string + Z :=
  fold_args m "add: Invalid number" add_step (args_from 1) 0.
Definition bi_mult (m : mcall) : string + Z :=
  fold_args m "mult: Invalid number" mult_step (args_from 1) 1.

(** [sub], [div] and [mod]: argument 1 is required, then a fold over
    arguments 2..9. *)
Definition first_arg_fold (m : mcall) (nm : string) (f : Z -> Z -> string + Z)
  : string + Z :=
  if negb (nonempty (ARG m 1)) then inl (nm ++ ": Argument 1 must be used")%string
  else match str_to_num (ARG m 1) with
       | None => inl (nm ++ ": Invalid number")%string
       | Some w => fold_args m (nm ++ ": Invalid number") f (args_from 2) w
       end.
Definition bi_sub (m : mcall) : string + Z := first_arg_fold m "sub" sub_step.
Definition bi_div (m : mcall) : string + Z := first_arg_fold m "div" div_step.
Definition bi_mod (m : mcall) : string + Z := first_arg_fold m "mod" mod_step.

(** [htdist]: the histogram of chain lengths written to stderr. *)
Definition htdist_freq (h : table) : list Z :=
  fold_left (fun fr k =>
      let c := Z.of_nat (length (h (Z.of_nat k))) in
      let i := Z.to_nat (if c <? 100 then c else 100) in
      replace_nth fr i (nth i fr 0 + 1))
    (seq 0 (Z.to_nat HASH_TABLE_SIZE)) (repeat 0 101).

Definition htdist (h : table) : list Z :=
  let fr := htdist_freq h in
  bytes "entries_per_bucket number_of_buckets" ++ [10] ++
  concat (map (fun k => let f := nth k fr 0 in
                 if f =? 0 then [] else dec (Z.of_nat k) ++ [32] ++ dec f ++ [10])
              (seq 0 100)) ++
  (if nth 100 fr 0 =? 0 then [] else bytes ">=100 " ++ dec (nth 100 fr 0) ++ [10]).

Fixpoint file_lookup (fs : list (list Z * list Z)) (fn : list Z) : option (list Z) :=
  match fs with
  | [] => None
  | (p, c) :: r => if streq p fn then Some c else file_lookup r fn
  end.

(** [include(input, fn)]: the file's bytes are stored last one first, so
    that its first byte is read first; [None] when [fn] is not a regular
    file. *)
Definition include (fs : list (list Z * list Z)) (inp fn : list Z) : option (list Z) :=
  match file_lookup fs fn with
  | None => None
  | Some c => Some (inp ++ rev c)
  end.

Definition emit_err (s : list Z) : M unit := modify (fun st => set_stderr st (stderr st ++ s)).

Definition is (s : list Z) (lit : string) : bool := streq s (bytes lit).

(** A single byte that is a digit: [strlen(s) == 1 && isdigit(s[0])]. *)
Definition single_digit (s : list Z) : bool :=
  match cstr s with [c] => isdigit (schar c) | _ => false end.

Fixpoint for_ks (ks : list Z) (body : Z -> M unit) : M unit :=
  match ks with
  | [] => skip
  | k :: r => body k ;;; for_ks r body
  end.

Definition push_num (r : string + Z) : M unit :=
  match r with
  | inl msg => equit msg
  | inr w => unget_str (dec w)
  end.

(** ** [PROCESS_BI_WITH_ARGS]: [m] is the top frame. *)
Definition bi_with_args (m : mcall) : M unit := fun st =>
  let SN := m_name m in
  let A := ARG m in
  (if is SN "define" then
     modify (fun st => set_ht st (upsert_entry (ht st) (A 1) (Some (A 2))))
   else if is SN "undefine" then
     (fun st => match delete_entry (ht st) (A 1) with
                | None => Quit st
                | Some h => Ok tt (set_ht st h)
                end)
   else if is SN "changequote" then
     let a1 := schar (hd 0 (A 1)) in let a2 := schar (hd 0 (A 2)) in
     if negb (Nat.eqb (length (A 1)) 1) || negb (Nat.eqb (length (A 2)) 1) || (a1 =? a2)
        || negb (isgraph a1) || negb (isgraph a2)
        || (a1 =? 40) || (a2 =? 40) || (a1 =? 41) || (a2 =? 41)
        || (a1 =? 44) || (a2 =? 44) then
       equit ("changequote: quotes must be different single graph chars"
              ++ " that cannot a comma or parentheses")
     else modify (fun st => set_quotes st (to_char a1) (to_char a2))
   else if is SN "divert" then
     if single_digit (A 1) then modify (fun st => set_act_div st (hd 0 (A 1) - 48))
     else if is (A 1) "-1" then modify (fun st => set_act_div st 10)
     else equit "divert: Diversion number must be 0 to 9 or -1"
   else if is SN "dumpdef" then
     for_ks (args_from 1) (fun k => fun st =>
       match ismacro (ht st) (A k) with
       | Some e => emit_err (A k ++ bytes ": " ++
                     match e_def e with None => bytes "built-in" | Some d => cstr d end
                     ++ [10]) st
       | None => (if nonempty (A k) then emit_err (A k ++ bytes ": undefined" ++ [10])
                  else skip) st
       end)
   else if is SN "errprint" then
     for_ks (args_from 1) (fun k =>
       if nonempty (A k) then emit_err (A k ++ [10]) else skip)
   else if is SN "ifdef" then
     (fun st => unget_str (match ismacro (ht st) (A 1) with
                           | Some _ => A 2 | None => A 3 end) st)
   else if is SN "ifelse" then
     unget_str (if streq (A 1) (A 2) then A 3 else A 4)
   else if is SN "include" then
     (fun st => match include (files st) (input st) (A 1) with
                | Some i => Ok tt (set_input st i)
                | None => (emit_err (bytes "include: Failed to include file: " ++ A 1 ++ [10])
                           ;;; quit) st
                end)
   else if is SN "len" then
     unget_str (dec (Z.of_nat (length (A 1))))
   else if is SN "index" then
     unget_str (match strstr (A 1) (A 2) with
                | None => bytes "-1" | Some i => dec (Z.of_nat i) end)
   else if is SN "translit" then
     match translit (A 1) (A 2) (A 3) with
     | None => undef
     | Some r => unget_str r
     end
   else if is SN "substr" then
     let len := Z.of_nat (length (A 1)) in
     if negb (len =? 0) then
       match str_to_num (A 2), str_to_num (A 3) with
       | Some w, Some n =>
           if w <? len then
             if Buf.AOF n 1 then quit
             else unget_str (firstn (Z.to_nat (Z.min len n)) (skipn (Z.to_nat w) (A 1)))
           else skip
       | _, _ => equit "substr: Invalid index or length"
       end
     else skip
   else if is SN "undivert" then
     (fun st =>
       if act_div st =? 0 then
         for_ks (args_from 1) (fun k =>
           if single_digit (A k) && negb (hd 0 (A k) =? 48)
           then out_div (hd 0 (A k) - 48) else skip) st
       else
         for_ks (args_from 1) (fun k =>
           if single_digit (A k) && negb (hd 0 (A k) =? 48)
              && negb (hd 0 (A k) - 48 =? act_div st)
           then modify (fun st =>
                  let d := hd 0 (A k) - 48 in
                  set_div (set_div st (act_div st) (div_at st (act_div st) ++ div_at st d)) d [])
           else skip) st)
   else if is SN "dnl" then DNL
   else if is SN "divnum" then DIVNUM
   else if is SN "incr" then
     match str_to_num (A 1) with
     | None => equit "incr: Invalid number"
     | Some n => if Buf.AOF n 1 then equit "incr: Integer overflow"
                 else unget_str (dec (n + 1))
     end
   else if is SN "htdist" then (fun st => emit_err (htdist (ht st)) st)
   else if is SN "dirsep" then unget_str (bytes "/")
   else if is SN "add" then push_num (bi_add m)
   else if is SN "mult" then push_num (bi_mult m)
   else if is SN "sub" then push_num (bi_sub m)
   else if is SN "div" then push_num (bi_div m)
   else if is SN "mod" then push_num (bi_mod m)
   else skip) st.

(** ** [PROCESS_BI_NO_ARGS] on the token [TS] *)
Definition bi_no_args (t : list Z) : M unit :=
  if is t "dnl" then DNL
  else if is t "divnum" then DIVNUM
  else if is t "undivert" then
    (fun st => if negb (act_div st =? 0) then
                 equit ("undivert: Can only call from diversion 0"
                        ++ " when called without arguments") st
               else undivert_all st)
  else if is t "divert" then modify (fun st => set_act_div st 0)
  else if is t "htdist" then (fun st => emit_err (htdist (ht st)) st)
  else if is t "dirsep" then unget_str (bytes "/")
  else put_out t.

(** ** The body of the [m4 loop] in [main] *)

Definition set_top (f : mcall -> mcall) : M unit := modify (fun st =>
  match stack st with
  | [] => st
  | m :: r => set_stack st (f m :: r)
  end).

Definition set_bd (m : mcall) (d : Z) : mcall :=
  mk_mcall (m_name m) (m_def m) d (m_act_arg m) (m_args m).
Definition set_act_arg (m : mcall) (k : Z) : mcall :=
  mk_mcall (m_name m) (m_def m) (m_bd m) k (m_args m).

(** [stack_on_mcall], the copies of the name and the definition, and
    [++stack->bracket_depth]: [init_mcall] allocates argument 1 only. *)
Definition push_frame (name : list Z) (def : option (list Z)) : M unit :=
  modify (fun st => set_stack st
    (mk_mcall (cstr name) (option_map cstr def) 1 1
       (None :: Some [] :: repeat None 8) :: stack st)).

(** [REMOVE_SH]: [delete_stack_head], which calls [free_mcall] on the
    head. *)
Definition pop_frame : M unit := fun st =>
  match stack st with
  | [] => Ok tt st
  | m :: r => if free_mcall m then Ok tt (set_stack st r) else Undef st
  end.

(** The [ARG_END] branch; a built-in first gets [terminate_args]. *)
Definition arg_end : M unit :=
  set_top (fun m => set_bd m (m_bd m - 1)) ;;;
  st <- get ;;
  match stack st with
  | [] => skip
  | m :: _ =>
      match m_def m with
      | None =>
          match terminate_args m with
          | None => undef
          | Some m' => bi_with_args m'
          end
      | Some d => unget_str (sub_args d (m_args m))
      end
  end ;;;
  pop_frame.

(** The [ARG_COMMA] branch. *)
Definition arg_comma (m : mcall) : M unit :=
  if m_act_arg m =? 9 then equit "Macro call has too many arguments"
  else set_top (fun m => set_arg (set_act_arg m (m_act_arg m + 1))
                                 (m_act_arg m + 1) (Some [])) ;;;
       EAT_WS.

Definition step : M unit :=
  out_div 0 ;;;
  t <- read_token ;;
  st <- get ;;
  if streq t [left_quote st] then
    modify (fun st => set_quote st true (quote_depth st)) ;;;
    (if negb (quote_depth st =? 0) then put_out t else skip) ;;;
    modify (fun st => set_quote st (quote_on st) ((quote_depth st + 1) mod 2 ^ 64))
  else if streq t [right_quote st] then
    (if 1 <? quote_depth st then put_out t else skip) ;;;
    modify (fun st =>
      let d := (quote_depth st - 1) mod 2 ^ 64 in
      set_quote st (if d =? 0 then false else quote_on st) d)
  else if quote_on st then put_out t
  else match ismacro (ht st) t with
  | Some e =>
      nt <- read_token ;;
      if streq nt (bytes "(") then
        push_frame t (e_def e) ;;; EAT_WS
      else
        unget_str nt ;;;
        match e_def e with
        | None => bi_no_args t
        | Some d => unget_str (strip_def d)
        end
  | None =>
      match stack st with
      | [] => put_out t
      | m :: _ =>
          if (m_bd m =? 1) && streq t (bytes ")") then arg_end
          else if (m_bd m =? 1) && streq t (bytes ",") then arg_comma m
          else if (1 <? m_bd m) && streq t (bytes ")") then
            put_out t ;;; set_top (fun m => set_bd m (m_bd m - 1))
          else if streq t (bytes "(") then
            put_out t ;;; set_top (fun m => set_bd m (m_bd m + 1))
          else put_out t
      end
  end.

(** The outcome of a run: the exit status [ret] and the final state, or
    undefined behaviour. *)
Inductive outcome := Exit (code : Z) (st : state) | Undefined (st : state).

(** [clean_up]: [free_stack(stack)] runs on every exit. *)
Definition clean_up (o : outcome) : outcome :=
  match o with
  | Exit c st => if free_stack (stack st) then Exit c st else Undefined st
  | Undefined st => Undefined st
  end.

(** [end_of_input]: the checks, then [UNDIVERT_ALL], then [clean_up]. *)
Definition end_of_input (st : state) : outcome :=
  clean_up match stack st with
  | _ :: _ =>
      Exit 1 (set_stderr st (stderr st ++ bytes "Input finished without unwinding the stack" ++ [10]))
  | [] =>
      if quote_on st then
        Exit 1 (set_stderr st (stderr st ++ bytes "Input finished without exiting quotes" ++ [10]))
      else match undivert_all st with
           | Ok _ st' => Exit 0 st'
           | Eoi st' | Quit st' => Exit 1 st'
           | Undef st' => Undefined st'
           end
  end.

(** The [while (1)] loop, for at most [fuel] rounds. *)
Fixpoint run (fuel : nat) (st : state) : option outcome :=
  match fuel with
  | O => None
  | S f =>
      match step st with
      | Ok _ st' => run f st'
      | Eoi st' => Some (end_of_input st')
      | Quit st' => Some (clean_up (Exit 1 st'))
      | Undef st' => Some (Undefined st')
      end
  end.

(** ** Start-up in [main] *)

Definition builtin_names : list string :=
  ["define"; "undefine"; "changequote"; "divert"; "dumpdef"; "errprint";
   "ifdef"; "ifelse"; "include"; "len"; "index"; "translit"; "substr"; "dnl";
   "divnum"; "undivert"; "incr"; "htdist"; "dirsep"; "add"; "mult"; "sub";
   "div"; "mod"]%string.

(** The table after the built-ins are defined with a NULL definition. *)
Definition builtin_table : table :=
  fold_left (fun h n => upsert_entry h (bytes n) None) builtin_names empty_table.

Definition start_state (inp sin : list Z) (rs : bool) (fs : list (list Z * list Z)) : state :=
  mk_state inp sin rs fs builtin_table false 0 0 (repeat [] 11) [] 96 39 [] [].

(** [main(argc, argv)] with the command line files [argv[1..]], the file
    system [fs] and standard input [sin]: with files, standard input is not
    read and the files are loaded from the last to the first. *)
Definition m4 (fuel : nat) (argv : list (list Z)) (fs : list (list Z * list Z))
  (sin : list Z) : option outcome :=
  match argv with
  | [] => run fuel (start_state [] sin true fs)
  | _ =>
      if forallb (fun fn => match file_lookup fs fn with Some _ => true | None => false end) argv
      then run fuel (start_state
             (fold_left (fun inp fn => match include fs inp fn with Some i => i | None => inp end)
                (rev argv) []) sin false fs)
      else Some (Exit 1 (start_state [] sin false fs))
  end.

Definition exit_code (o : option outcome) : option Z :=
  match o with Some (Exit c _) => Some c | _ => None end.
Definition out_of (o : option outcome) : list Z :=
  match o with Some (Exit _ st) | Some (Undefined st) => stdout st | None => [] end.

(** ** Definitions following the words of the spec

    These are not translated from the source: they state what the spec
    says, to be compared with the definitions above. *)

(** The token sequence of a byte stream as the tokenizer section of the
    spec describes it: an identifier (a letter or underscore followed by
    letters, digits and underscores) or a single other byte.  [cur] is the
    identifier being collected. *)
Fixpoint tok_acc (cur : list Z) (s : list Z) : list (list Z) :=
  match s with
  | [] => match cur with [] => [] | _ => [cur] end
  | c :: r =>
      match cur with
      | [] => if is_id_start c then tok_acc [c] r else [c] :: tok_acc [] r
      | _ => if is_id_char c then tok_acc (cur ++ [c]) r
             else cur :: [c] :: tok_acc [] r
      end
  end.
Definition spec_tokens (s : list Z) : list (list Z) := tok_acc [] s.

(** Parameter substitution in the words of the spec: [$d] for [d] in
    [1..9] becomes the contents of [args[d]] (empty if absent); every other
    byte, a [$] before [0] or before a non-digit included, is unchanged. *)
Fixpoint spec_subst (d : list Z) (args : Z -> option (list Z)) : list Z :=
  match d with
  | [] => []
  | c :: r =>
      if c =? 36 then
        match r with
        | h :: r' =>
            if (49 <=? h) && (h <=? 57) then
              match args (h - 48) with Some b => b | None => [] end ++ spec_subst r' args
            else c :: spec_subst r args
        | [] => [c]
        end
      else c :: spec_subst r args
  end.

(** An argument of the arithmetic built-ins in the words of the spec: a
    non-empty string of decimal digits whose value is an unsigned integer
    (at most [SIZE_MAX]); anything else is a fatal error ([None]). *)
Definition dec_value (s : list Z) : Z := fold_left (fun acc c => acc * 10 + (c - 48)) s 0.
Definition spec_num (s : list Z) : option Z :=
  let c := cstr s in
  if negb (Nat.eqb (length c) 0) && forallb isdigit c && (dec_value c <=? SIZE_MAX)
  then Some (dec_value c) else None.

(** The arithmetic folds of the spec over the non-empty arguments; [None]
    is a fatal error. *)
Definition spec_fold (f : Z -> Z -> option Z) (init : Z) (xs : list (list Z)) : option Z :=
  fold_left (fun acc x =>
      match acc with
      | None => None
      | Some w => match spec_num x with None => None | Some n => f w n end
      end) (filter nonempty xs) (Some init).

Definition spec_add_op (w n : Z) := if w + n <=? SIZE_MAX then Some (w + n) else None.
Definition spec_mult_op (w n : Z) := if w * n <=? SIZE_MAX then Some (w * n) else None.
Definition spec_sub_op (w n : Z) := if n <=? w then Some (w - n) else None.
Definition spec_div_op (w n : Z) := if n =? 0 then None else Some (w / n).
Definition spec_mod_op (w n : Z) := if n =? 0 then None else Some (w mod n).

(** [add] sums from 0 and [mult] multiplies from 1 over arguments 1..9;
    [sub], [div] and [mod] require argument 1 and fold over 2..9. *)
Definition spec_arith_all (f : Z -> Z -> option Z) (init : Z) (args : Z -> list Z) : option Z :=
  spec_fold f init (map args (args_from 1)).
Definition spec_arith_first (f : Z -> Z -> option Z) (args : Z -> list Z) : option Z :=
  if nonempty (args 1) then
    match spec_num (args 1) with
    | None => None
    | Some w => spec_fold f w (map args (args_from 2))
    end
  else None.

(** The value an arithmetic built-in pushes, [None] for a fatal error. *)
Definition result_val (r : string + Z) : option Z :=
  match r with inl _ => None | inr w => Some w end.

(** ** Predicates and states used by the properties *)

(** A byte value, and a byte that [getch] does not confuse with [EOF]. *)
Definition byte_ok (b : Z) : Prop := 0 <= b < 256.

Definition push_ok (b : Z) : Prop := 0 < b < 255.

(** Bytes passed through by the main loop unchanged: no NUL, no 0xFF, no
    quote character. *)
Definition good_byte (b : Z) : Prop := 0 < b < 255 /\ b <> 96 /\ b <> 39.

(** The engine state with the input stack [i] and standard input [s]. *)
Definition with_stream (st : state) (i s : list Z) : state := set_stdin (set_input st i) s.

(** An engine state at the top of the loop with nothing but the initial
    settings: empty call stack, no quoting, diversion 0 active and holding
    [d0], the other diversions empty, the symbol table [h]. *)
Definition plain_state h i s rs fs d0 o e : state :=
  mk_state i s rs fs h false 0 0 (d0 :: repeat [] 10) [] 96 39 o e.

(** Well-formed symbol-table entries: a non-empty NUL-free name, and an
    absent definition only under a built-in name. *)
Definition builtin_bytes : list (list Z) := map bytes builtin_names.

Definition entry_ok (e : entry) : Prop :=
  e_name e <> [] /\ cstr (e_name e) = e_name e /\
  (e_def e = None -> In (e_name e) builtin_bytes).

Definition table_ok (t : table) : Prop := forall k e, In e (t k) -> entry_ok e.

(** One step of the decimal value of a digit string, and the arguments
    of a frame holding bytes only. *)
Definition dstep (acc c : Z) : Z := acc * 10 + (c - 48).

Definition args_ok (m : mcall) : Prop :=
  Forall (fun a => match a with Some b => Forall byte_ok b | None => True end) (m_args m).

(** A well-formed hash table: every entry sits in the bucket of its name,
    and no chain holds two entries of the same name. *)
Definition table_wf (t : table) : Prop :=
  forall k, Forall (fun e => hash_str (e_name e) = k) (t k) /\
            NoDup (map (fun e => cstr (e_name e)) (t k)).

(** The position of the first occurrence of [c] in [l]. *)
Fixpoint index_of (c : Z) (l : list Z) : option nat :=
  match l with
  | [] => None
  | x :: r => if x =? c then Some O else option_map S (index_of c r)
  end.

(** What [translit] makes of one byte [c] of its first argument, with the
    map built from [from] and [to]: the bytes of [from] from position
    [min (length from) (length to)] on are deleted; a byte occurring before
    that position becomes the byte of [to] at its first occurrence; any
    other byte is kept. *)
Definition tl_image (from to : list Z) (c : Z) : list Z :=
  let n := Nat.min (length from) (length to) in
  if existsb (Z.eqb c) (skipn n from) then []
  else match index_of c (firstn n from) with
       | Some i => [nth i to 0]
       | None => [c]
       end.

(** The contents of a file of the file system, empty if it is missing. *)
Definition contents_of (fs : list (list Z * list Z)) (fn : list Z) : list Z :=
  match file_lookup fs fn with Some c => c | None => [] end.

(** The value at index [k] of the [translit] map. *)
Definition mval (mp : list Z) (k : Z) : Z := nth (Z.to_nat k) mp 0.

(** The bytes [dnl] can skip before its newline. *)
Definition dnl_byte (b : Z) : Prop := byte_ok b /\ b <> 255 /\ b <> 10.

(** The bytes [WS] recognises: space, tab, newline, carriage return. *)
Definition ws_byte (b : Z) : Prop := b = 32 \/ b = 9 \/ b = 10 \/ b = 13.

(** * Properties *)

(** ** Bytes and character classes *)

Ltac zbool :=
  repeat match goal with
    | |- context [?x <=? ?y] => destruct (Z.leb_spec x y)
    | |- context [?x <? ?y] => destruct (Z.ltb_spec x y)
    | |- context [?x =? ?y] => destruct (Z.eqb_spec x y)
    end; simpl; try lia; try reflexivity.


Lemma to_char_schar b : byte_ok b -> to_char (schar b) = b.
Proof.
  unfold byte_ok, to_char, schar; intros H. destruct (Z.leb_spec 128 b).
  - replace (b - 256) with (b + (-1) * 256) by lia. rewrite Z.mod_add by lia.
    apply Z.mod_small; lia.
  - apply Z.mod_small; lia.
Qed.

Lemma to_char_id b : byte_ok b -> to_char b = b.
Proof. unfold byte_ok, to_char; intros; apply Z.mod_small; lia. Qed.

Lemma schar_small b : b < 128 -> schar b = b.
Proof. unfold schar; intros; zbool. Qed.

Lemma schar_eof b : byte_ok b -> (schar b =? EOF) = (b =? 255).
Proof. unfold byte_ok, schar, EOF; intros; zbool. Qed.

Lemma isupper_large x : (x < 0 \/ 128 <= x) -> isupper x = false.
Proof. unfold isupper; intros; zbool. Qed.
Lemma islower_large x : (x < 0 \/ 128 <= x) -> islower x = false.
Proof. unfold islower; intros; zbool. Qed.
Lemma isdigit_large x : (x < 0 \/ 128 <= x) -> isdigit x = false.
Proof. unfold isdigit; intros; zbool. Qed.

Lemma is_id_char_large x : (x < 0 \/ 128 <= x) -> is_id_char x = false.
Proof.
  intros H. unfold is_id_char, isalnum, isalpha.
  rewrite isupper_large, islower_large, isdigit_large by lia. simpl; zbool.
Qed.

Lemma is_id_start_large x : (x < 0 \/ 128 <= x) -> is_id_start x = false.
Proof.
  intros H. unfold is_id_start, isalpha.
  rewrite isupper_large, islower_large by lia. simpl; zbool.
Qed.

Lemma is_id_char_schar b : byte_ok b -> is_id_char (schar b) = is_id_char b.
Proof.
  unfold byte_ok; intros H. destruct (Z.ltb_spec b 128).
  - rewrite schar_small; auto.
  - unfold schar. destruct (Z.leb_spec 128 b); try lia.
    rewrite !is_id_char_large by lia; reflexivity.
Qed.

Lemma is_id_start_schar b : byte_ok b -> is_id_start (schar b) = is_id_start b.
Proof.
  unfold byte_ok; intros H. destruct (Z.ltb_spec b 128).
  - rewrite schar_small; auto.
  - unfold schar. destruct (Z.leb_spec 128 b); try lia.
    rewrite !is_id_start_large by lia; reflexivity.
Qed.

Lemma is_id_char_small x : is_id_char x = true -> 0 <= x < 128.
Proof.
  intros H. destruct (Z.ltb_spec x 0); [rewrite is_id_char_large in H by lia; discriminate|].
  destruct (Z.ltb_spec x 128); [lia|rewrite is_id_char_large in H by lia; discriminate].
Qed.

Lemma is_id_start_char x : is_id_start x = true -> is_id_char x = true.
Proof.
  unfold is_id_start, is_id_char, isalnum.
  destruct (isalpha x), (isdigit x), (x =? 95); simpl; auto.
Qed.

(** ** The input stream *)


Lemma with_stream_twice st i s i' s' :
  with_stream (with_stream st i s) i' s' = with_stream st i' s'.
Proof. destruct st; reflexivity. Qed.

Lemma with_stream_same st : with_stream st (input st) (stdin st) = st.
Proof. destruct st; reflexivity. Qed.

Lemma set_input_stream st i s i' : set_input (with_stream st i s) i' = with_stream st i' s.
Proof. destruct st; reflexivity. Qed.

Lemma readable_push st b : readable (set_input st (input st ++ [b])) = b :: readable st.
Proof. unfold readable; destruct st; simpl; rewrite rev_app_distr; reflexivity. Qed.

Lemma getch_nil st : readable st = [] -> getch st = (EOF, st).
Proof.
  unfold readable, getch. intros H. apply app_eq_nil in H as [H1 H2].
  rewrite H1. destruct (read_stdin st); [rewrite H2|]; reflexivity.
Qed.

Lemma getch_cons st b R : readable st = b :: R ->
  exists v i s, getch st = (v, with_stream st i s) /\
    readable (with_stream st i s) = R /\ (v = b \/ v = schar b).
Proof.
  unfold readable, getch. destruct (rev (input st)) as [|x r] eqn:E; simpl.
  - destruct (read_stdin st) eqn:Rs; [|discriminate].
    destruct (stdin st) as [|c r'] eqn:Es; [discriminate|]. intros [= -> ->].
    exists b, (input st), R.
    split; [f_equal; destruct st; reflexivity | split; [rewrite E; reflexivity | auto]].
  - intros [= -> <-]. exists (schar b), (rev r), (stdin st).
    split; [f_equal; destruct st; reflexivity | split; [rewrite rev_involutive; reflexivity | auto]].
Qed.

Lemma input_with_stream st i s : input (with_stream st i s) = i.
Proof. destruct st; reflexivity. Qed.

Lemma readable_push_stream st i s b :
  readable (with_stream st (i ++ [b]) s) = b :: readable (with_stream st i s).
Proof.
  destruct st; unfold readable; simpl; rewrite rev_app_distr; reflexivity.
Qed.

(** A byte read by [getch] is the stored byte, possibly as a signed [char]. *)
Lemma getch_value v b : byte_ok b -> (v = b \/ v = schar b) ->
  to_char v = b /\ is_id_char v = is_id_char b /\ is_id_start v = is_id_start b /\
  (v =? EOF) = (b =? 255) && (v =? schar b).
Proof.
  intros Hb [-> | ->]; repeat split;
    auto using to_char_id, to_char_schar, is_id_char_schar, is_id_start_schar.
  - unfold byte_ok, schar, EOF in *; zbool.
  - rewrite schar_eof by auto. rewrite Z.eqb_refl, andb_true_r. reflexivity.
Qed.

Lemma ident_loop_tok : forall cs f tok st x R,
  readable st = cs ++ x :: R -> forallb is_id_char cs = true ->
  is_id_char x = false -> byte_ok x -> x <> 255 -> (length cs < f)%nat ->
  exists i s, ident_loop f tok st = GW_tok (tok ++ cs) (with_stream st i s) /\
    readable (with_stream st i s) = x :: R.
Proof.
  induction cs as [|c cs IH]; intros f tok st x R Hr Hcs Hx Hb H255 Hf;
    destruct f as [|f]; simpl in Hf; try lia; simpl.
  - destruct (getch_cons st x R Hr) as (v & i & s & Hg & Hr' & Hv). rewrite Hg.
    destruct (getch_value v x Hb Hv) as (Hc & Hic & _ & He).
    rewrite He, Hic, Hx. destruct (Z.eqb_spec x 255); [contradiction|]. simpl.
    unfold unget. rewrite Hc, schar_eof by auto.
    destruct (Z.eqb_spec x 255); [contradiction|].
    exists (i ++ [x]), s. rewrite app_nil_r, set_input_stream. split; auto.
    rewrite readable_push_stream, Hr'. reflexivity.
  - simpl in Hcs. apply andb_prop in Hcs as [Hc1 Hcs].
    pose proof (is_id_char_small c Hc1) as Hcr.
    destruct (getch_cons st c (cs ++ x :: R) Hr) as (v & i & s & Hg & Hr' & Hv). rewrite Hg.
    assert (Hcb : byte_ok c) by (unfold byte_ok; lia).
    destruct (getch_value v c Hcb Hv) as (Hc & Hic & _ & He).
    rewrite He, Hic, Hc1. destruct (Z.eqb_spec c 255); [lia|]. simpl.
    unfold unget. rewrite Hc, schar_eof by auto. destruct (Z.eqb_spec c 255); [lia|].
    destruct (IH f (tok ++ [c]) (with_stream st i s) x R Hr' Hcs Hx Hb H255 ltac:(lia))
      as (i' & s' & Hl & Hr'').
    exists i', s'. rewrite Hl, with_stream_twice, <- app_assoc in *. split; auto.
Qed.

Lemma ident_loop_eof : forall cs f tok st,
  readable st = cs -> forallb is_id_char cs = true -> (length cs < f)%nat ->
  exists i s, ident_loop f tok st = GW_eof (with_stream st i s) /\
    readable (with_stream st i s) = [].
Proof.
  induction cs as [|c cs IH]; intros f tok st Hr Hcs Hf;
    destruct f as [|f]; simpl in Hf; try lia; simpl.
  - rewrite (getch_nil st Hr). simpl. exists (input st), (stdin st).
    rewrite with_stream_same. auto.
  - simpl in Hcs. apply andb_prop in Hcs as [Hc1 Hcs].
    pose proof (is_id_char_small c Hc1) as Hcr.
    destruct (getch_cons st c cs Hr) as (v & i & s & Hg & Hr' & Hv). rewrite Hg.
    assert (Hcb : byte_ok c) by (unfold byte_ok; lia).
    destruct (getch_value v c Hcb Hv) as (Hc & Hic & _ & He).
    rewrite He, Hic, Hc1. destruct (Z.eqb_spec c 255); [lia|]. simpl.
    unfold unget. rewrite Hc, schar_eof by auto. destruct (Z.eqb_spec c 255); [lia|].
    destruct (IH f (tok ++ [c]) (with_stream st i s) Hr' Hcs ltac:(lia))
      as (i' & s' & Hl & Hr'').
    exists i', s'. rewrite Hl, with_stream_twice in *. split; auto.
Qed.

(** ** The tokenizer *)

Lemma getword_single st c R : readable st = c :: R -> is_id_start c = false ->
  byte_ok c -> c <> 255 ->
  exists i s, getword st = GW_tok [c] (with_stream st i s) /\
    readable (with_stream st i s) = R.
Proof.
  intros Hr Hs Hb H255. unfold getword.
  destruct (getch_cons st c R Hr) as (v & i & s & Hg & Hr' & Hv). rewrite Hg.
  destruct (getch_value v c Hb Hv) as (Hc & _ & His & He).
  rewrite He. destruct (Z.eqb_spec c 255); [contradiction|]. simpl.
  unfold unget. rewrite Hc, schar_eof by auto. destruct (Z.eqb_spec c 255); [contradiction|].
  rewrite His, Hs. exists i, s. auto.
Qed.

Lemma getword_ident st c cs x R : readable st = c :: cs ++ x :: R ->
  is_id_start c = true -> forallb is_id_char cs = true ->
  is_id_char x = false -> byte_ok x -> x <> 255 ->
  exists i s, getword st = GW_tok (c :: cs) (with_stream st i s) /\
    readable (with_stream st i s) = x :: R.
Proof.
  intros Hr Hs Hcs Hx Hb H255. unfold getword.
  pose proof (is_id_char_small c (is_id_start_char c Hs)) as Hcr.
  assert (Hcb : byte_ok c) by (unfold byte_ok; lia).
  destruct (getch_cons st c _ Hr) as (v & i & s & Hg & Hr' & Hv). rewrite Hg.
  destruct (getch_value v c Hcb Hv) as (Hc & _ & His & He).
  rewrite He. destruct (Z.eqb_spec c 255); [lia|]. cbn [andb unget app].
  rewrite Hc, schar_eof by auto. destruct (Z.eqb_spec c 255); [lia|].
  rewrite His, Hs.
  destruct (ident_loop_tok cs (S (length (readable (with_stream st i s)))) [c]
              (with_stream st i s) x R Hr' Hcs Hx Hb H255) as (i' & s' & Hl & Hr'').
  { rewrite Hr', length_app. simpl. lia. }
  exists i', s'. rewrite Hl, with_stream_twice in *. auto.
Qed.

Lemma getword_ident_eof st c cs : readable st = c :: cs ->
  is_id_start c = true -> forallb is_id_char cs = true ->
  exists i s, getword st = GW_eof (with_stream st i s) /\
    readable (with_stream st i s) = [].
Proof.
  intros Hr Hs Hcs. unfold getword.
  pose proof (is_id_char_small c (is_id_start_char c Hs)) as Hcr.
  assert (Hcb : byte_ok c) by (unfold byte_ok; lia).
  destruct (getch_cons st c _ Hr) as (v & i & s & Hg & Hr' & Hv). rewrite Hg.
  destruct (getch_value v c Hcb Hv) as (Hc & _ & His & He).
  rewrite He. destruct (Z.eqb_spec c 255); [lia|]. cbn [andb unget app].
  rewrite Hc, schar_eof by auto. destruct (Z.eqb_spec c 255); [lia|].
  rewrite His, Hs.
  destruct (ident_loop_eof cs (S (length (readable (with_stream st i s)))) [c]
              (with_stream st i s) Hr' Hcs) as (i' & s' & Hl & Hr'').
  { rewrite Hr'. lia. }
  exists i', s'. rewrite Hl, with_stream_twice in *. auto.
Qed.

Lemma getword_nil st : readable st = [] -> getword st = GW_eof st.
Proof.
  intros Hr. unfold getword. rewrite (getch_nil st Hr). reflexivity.
Qed.

(** [ungetstr(input, s)] of a string of bytes other than NUL and 0xFF puts
    it in front of the readable stream. *)

Lemma unget_loop_ok : forall rs st, Forall push_ok rs ->
  unget_loop rs st = Ok tt (set_input st (input st ++ map id rs)).
Proof.
  induction rs as [|c r IH]; intros st H; simpl.
  - rewrite app_nil_r. destruct st; reflexivity.
  - inversion H as [|? ? Hc Hr]; subst. unfold unget.
    assert (Hb : byte_ok c) by (unfold push_ok, byte_ok in *; lia).
    rewrite to_char_schar, schar_eof by auto. destruct (Z.eqb_spec c 255).
    { unfold push_ok in Hc; lia. }
    rewrite IH by auto. f_equal. destruct st; simpl. rewrite <- app_assoc. reflexivity.
Qed.

Lemma cstr_id s : Forall push_ok s -> cstr s = s.
Proof.
  induction s as [|c r IH]; intros H; simpl; auto.
  inversion H; subst. unfold push_ok in *. destruct (Z.eqb_spec c 0); [lia|].
  rewrite IH; auto.
Qed.

Lemma unget_str_ok s st : Forall push_ok s ->
  exists st', unget_str s st = Ok tt st' /\ readable st' = s ++ readable st /\
    st' = set_input st (input st'). 
Proof.
  intros H. unfold unget_str. rewrite cstr_id by auto.
  rewrite unget_loop_ok by (apply Forall_rev; auto).
  eexists; split; [reflexivity|]. split.
  - unfold readable. destruct st; simpl. rewrite map_id, rev_app_distr, rev_involutive.
    rewrite app_assoc. reflexivity.
  - destruct st; reflexivity.
Qed.

(** ** Pass-through of plain text *)



Lemma streq_single_false t q : q <> 0 -> Forall (fun b => b <> 0 /\ b <> q) t -> streq t [q] = false.
Proof.
  intros Hq0 H. destruct t as [|c r].
  { unfold streq. simpl. destruct (Z.eqb_spec q 0); [contradiction|reflexivity]. } inversion H as [|? ? [H0 Hq] ?]; subst.
  unfold streq. simpl. destruct (Z.eqb_spec c 0); [contradiction|]. simpl.
  destruct (Z.eqb_spec q 0); [contradiction|].
  destruct (Z.eqb_spec c q); [contradiction|]. reflexivity.
Qed.

Lemma good_push t : Forall good_byte t -> Forall push_ok t.
Proof. apply Forall_impl. unfold good_byte, push_ok; intros; lia. Qed.

Lemma good_not t q : Forall good_byte t -> (q = 96 \/ q = 39) -> Forall (fun b => b <> 0 /\ b <> q) t.
Proof. intros H Hq. eapply Forall_impl; [|exact H]. unfold good_byte; intros; lia. Qed.

Lemma step_plain h i s rs fs d0 o e t R :
  (exists i' s', getword (plain_state h i s rs fs [] (o ++ d0) e) =
     GW_tok t (with_stream (plain_state h i s rs fs [] (o ++ d0) e) i' s') /\
     readable (with_stream (plain_state h i s rs fs [] (o ++ d0) e) i' s') = R) ->
  Forall good_byte t -> ismacro h t = None ->
  exists i' s', step (plain_state h i s rs fs d0 o e) = Ok tt (plain_state h i' s' rs fs t (o ++ d0) e) /\
    readable (plain_state h i' s' rs fs t (o ++ d0) e) = R.
Proof.
  intros (i' & s' & Hg & Hr) Ht Hm. exists i', s'. split.
  2:{ rewrite <- Hr. reflexivity. }
  unfold step, bind at 1.
  replace (out_div 0 (plain_state h i s rs fs d0 o e))
    with (@Ok unit tt (plain_state h i s rs fs [] (o ++ d0) e)) by reflexivity.
  unfold bind at 1, read_token. rewrite Hg.
  cbv [bind get with_stream set_stdin set_input left_quote right_quote quote_on
       quote_depth ht stack plain_state].
  rewrite (streq_single_false t 96), (streq_single_false t 39), Hm
    by (lia || (apply good_not; auto)).
  cbv [put_out modify set_div set_diversion div_at diversion act_div stack stdout].
  rewrite (cstr_id t) by (apply good_push; auto). reflexivity.
Qed.

Lemma run_S f st : run (S f) st =
  match step st with
  | Ok _ st' => run f st'
  | Eoi st' => Some (end_of_input st')
  | Quit st' => Some (clean_up (Exit 1 st'))
  | Undef st' => Some (Undefined st')
  end.
Proof. reflexivity. Qed.

Lemma step_plain_eof h i s rs fs d0 o e :
  readable (plain_state h i s rs fs d0 o e) = [] ->
  step (plain_state h i s rs fs d0 o e) = Eoi (plain_state h i s rs fs [] (o ++ d0) e).
Proof.
  intros Hr. unfold step, bind at 1.
  replace (out_div 0 (plain_state h i s rs fs d0 o e))
    with (@Ok unit tt (plain_state h i s rs fs [] (o ++ d0) e)) by reflexivity.
  unfold bind at 1, read_token. rewrite getword_nil by exact Hr. reflexivity.
Qed.

Lemma end_plain h i s rs fs o e : exists st',
  end_of_input (plain_state h i s rs fs [] o e) = Exit 0 st' /\ stdout st' = o.
Proof.
  unfold end_of_input. cbv -[app].
  eexists; split; [reflexivity|]. rewrite !app_nil_r. reflexivity.
Qed.

Lemma split_ident r : exists cs rest, r = cs ++ rest /\ forallb is_id_char cs = true /\
  (rest = [] \/ exists x R, rest = x :: R /\ is_id_char x = false).
Proof.
  induction r as [|a r (cs & rest & E & Hcs & Hrest)].
  - exists [], []. auto.
  - destruct (is_id_char a) eqn:Ha.
    + exists (a :: cs), rest. subst r. simpl. rewrite Ha, Hcs. auto.
    + exists [], (a :: r). simpl. split; [reflexivity|]. split; [reflexivity|]. right; eauto.
Qed.

Lemma tok_acc_ident : forall cs cur rest, cur <> [] -> forallb is_id_char cs = true ->
  tok_acc cur (cs ++ rest) = tok_acc (cur ++ cs) rest.
Proof.
  induction cs as [|a cs IH]; intros cur rest Hc Hcs.
  - rewrite app_nil_r. reflexivity.
  - simpl in Hcs. apply andb_prop in Hcs as [Ha Hcs].
    destruct cur as [|z zs]; [contradiction|]. simpl. rewrite Ha.
    rewrite (IH ((z :: zs) ++ [a])) by (auto; destruct zs; discriminate).
    rewrite <- app_assoc. reflexivity.
Qed.

Lemma id_char_start x : is_id_char x = false -> is_id_start x = false.
Proof.
  intros H. destruct (is_id_start x) eqn:E; [|reflexivity].
  rewrite (is_id_start_char x E) in H. discriminate.
Qed.

Lemma last_cons (x : list Z) l : last (x :: l) [] = match l with [] => x | _ => last l [] end.
Proof. destruct l; reflexivity. Qed.

Lemma readable_plain h i s rs fs d o e :
  readable (plain_state h i s rs fs d o e) = rev i ++ (if rs then s else []).
Proof. reflexivity. Qed.

Lemma tokens_single c r : is_id_start c = false -> spec_tokens (c :: r) = [c] :: tok_acc [] r.
Proof. intros Hs. unfold spec_tokens. simpl. rewrite Hs. reflexivity. Qed.

Lemma tokens_ident c cs x R : is_id_start c = true -> forallb is_id_char cs = true ->
  is_id_char x = false -> spec_tokens (c :: cs ++ x :: R) = (c :: cs) :: [x] :: tok_acc [] R.
Proof.
  intros Hs Hcs Hx. unfold spec_tokens. simpl. rewrite Hs.
  rewrite tok_acc_ident by (discriminate || exact Hcs). simpl. rewrite Hx. reflexivity.
Qed.

Lemma tokens_ident_end c cs : is_id_start c = true -> forallb is_id_char cs = true ->
  spec_tokens (c :: cs ++ []) = [c :: cs].
Proof.
  intros Hs Hcs. unfold spec_tokens. simpl. rewrite Hs.
  rewrite tok_acc_ident by (discriminate || exact Hcs). reflexivity.
Qed.

Lemma run_plain h : forall n R i s rs fs d0 o e f,
  (length R <= n)%nat -> readable (plain_state h i s rs fs d0 o e) = R ->
  Forall good_byte R ->
  Forall (fun t => ismacro h t = None) (spec_tokens R) ->
  is_id_start (hd 0 (last (spec_tokens R) [])) = false ->
  (length R < f)%nat ->
  exists st', run f (plain_state h i s rs fs d0 o e) = Some (Exit 0 st') /\
    stdout st' = o ++ d0 ++ R.
Proof.
  induction n as [|n IH]; intros R i s rs fs d0 o e f Hn Hr Hg Hm Hl Hf;
    (destruct R as [|c r];
     [ destruct f as [|f]; [lia|]; rewrite run_S, step_plain_eof by exact Hr;
       destruct (end_plain h i s rs fs (o ++ d0) e) as (st' & E & Ho);
       exists st'; rewrite E, Ho, app_nil_r; auto
     | ]); [simpl in Hn; lia|].
  inversion Hg as [|? ? Hc Hgr]; subst.
  assert (Hcb : byte_ok c /\ c <> 255) by (unfold byte_ok, good_byte in *; lia).
  destruct f as [|f]; [simpl in Hf; lia|]. rewrite run_S.
  rewrite readable_plain in Hr.
  destruct (is_id_start c) eqn:Hs.
  - destruct (split_ident r) as (cs & rest & -> & Hcs & [-> | (x & R' & -> & Hx)]).
    + rewrite tokens_ident_end in Hl by assumption. simpl in Hl. rewrite Hs in Hl. discriminate.
    + rewrite tokens_ident in Hm, Hl by assumption.
      inversion Hm as [|? ? Hm1 Hm2]; subst.
      apply Forall_app in Hgr as [Hgcs Hgx].
      assert (Hxb : byte_ok x /\ x <> 255)
        by (inversion Hgx; unfold byte_ok, good_byte in *; lia).
      destruct (step_plain h i s rs fs d0 o e (c :: cs) (x :: R')) as (i' & s' & Es & Er).
      { apply getword_ident; try tauto; rewrite readable_plain; exact Hr. }
      { constructor; assumption. }
      { exact Hm1. }
      rewrite Es.
      destruct (IH (x :: R') i' s' rs fs (c :: cs) (o ++ d0) e f) as (st' & E & Ho).
      * simpl in Hn. rewrite length_app in Hn. simpl in Hn |- *. lia.
      * exact Er.
      * exact Hgx.
      * unfold spec_tokens. simpl. rewrite (id_char_start x Hx). exact Hm2.
      * unfold spec_tokens. simpl. rewrite (id_char_start x Hx). exact Hl.
      * simpl in Hf. rewrite length_app in Hf. simpl in Hf |- *. lia.
      * exists st'. rewrite E, Ho. rewrite <- !app_assoc. auto.
  - rewrite tokens_single in Hm, Hl by exact Hs.
    inversion Hm as [|? ? Hm1 Hm2]; subst.
    destruct (step_plain h i s rs fs d0 o e [c] r) as (i' & s' & Es & Er).
    { apply getword_single; try tauto; rewrite readable_plain; exact Hr. }
    { constructor; [assumption|constructor]. }
    { exact Hm1. }
    rewrite Es.
    destruct (IH r i' s' rs fs [c] (o ++ d0) e f) as (st' & E & Ho).
    * simpl in Hn. lia.
    * exact Er.
    * exact Hgr.
    * exact Hm2.
    * unfold spec_tokens. destruct (tok_acc [] r) as [|t0 L] eqn:EL; [reflexivity|].
      exact Hl.
    * simpl in Hf. lia.
    * exists st'. rewrite E, Ho. rewrite <- !app_assoc. auto.
Qed.

(** ** Auxiliary facts for the main loop *)

Lemma start_plain i s rs fs : start_state i s rs fs = plain_state builtin_table i s rs fs [] [] [].
Proof. reflexivity. Qed.

Lemma readable_flush st :
  readable (set_div (set_stdout st (stdout st ++ div_at st 0)) 0 []) = readable st.
Proof. destruct st; reflexivity. Qed.

(** * Claims *)

(** C1 (defect of [delete_entry]): "en" and "kaa" share bucket 11694.
    After defining "en" and then "kaa", "kaa" heads the chain and "en"
    follows it.  Deleting "kaa" empties the whole bucket, so "en", which
    was defined as 1, is no longer found; the engine run of
    [define(en,1)define(kaa,2)undefine(`kaa')en] prints "en" instead of
    "1". *)
Theorem delete_head_drops_successor :
  let t := upsert_entry (upsert_entry builtin_table (bytes "en") (Some (bytes "1")))
             (bytes "kaa") (Some (bytes "2")) in
  hash_str (bytes "en") = hash_str (bytes "kaa") /\
  get_def t (bytes "en") = Some (bytes "1") /\
  (exists t', delete_entry t (bytes "kaa") = Some t' /\
     lookup_entry t' (bytes "kaa") = None /\ lookup_entry t' (bytes "en") = None) /\
  out_of (m4 100 [] [] (bytes "define(en,1)define(kaa,2)undefine(`kaa')en
")) = bytes "en
".
Proof.
  vm_compute. split; [reflexivity|]. split; [reflexivity|]. split; [|reflexivity].
  eexists. split; [reflexivity|]. split; reflexivity.
Qed.

(** C3 (defect of the quote handling): a stray right quote decrements the
    unsigned [quote_depth] from 0 to [SIZE_MAX]; the end-of-input check
    tests [quote_on], which is false, so the input "'" ends with exit
    status 0, an empty call stack and [quote_depth] different from 0. *)
Theorem stray_right_quote_exit_zero :
  exists st, m4 3 [] [] (bytes "'") = Some (Exit 0 st) /\
    quote_depth st = SIZE_MAX /\ stack st = [].
Proof. vm_compute. eexists. split; [reflexivity|]. split; reflexivity. Qed.

(** C4 (counterexample): the input "`a'" has no token naming a
    symbol-table entry and calls no built-in, yet the quote characters are
    consumed and standard output receives "a" only. *)
Lemma quoted_text_not_copied :
  Forall (fun t => ismacro builtin_table t = None) (spec_tokens (bytes "`a'")) /\
  match m4 4 [] [] (bytes "`a'") with
  | Some (Exit 0 st) => stdout st = bytes "a" /\ stdout st <> bytes "`a'"
  | _ => False
  end.
Proof.
  split.
  - rewrite Forall_forall. intros t Ht. vm_compute in Ht.
    repeat (destruct Ht as [<-|Ht]; [vm_compute; reflexivity|]). contradiction.
  - vm_compute. split; [reflexivity | discriminate].
Qed.

(** C4 (amended): standard input made of bytes other than NUL, 0xFF and the
    quote characters, none of whose tokens names a symbol-table entry
    ([ISMACRO] fails on each) and whose last token is not an identifier,
    is copied to standard output unchanged, and the run ends with exit
    status 0 within one round per byte. *)
Theorem m4_pass_through fs sin :
  Forall good_byte sin ->
  Forall (fun t => ismacro builtin_table t = None) (spec_tokens sin) ->
  is_id_start (hd 0 (last (spec_tokens sin) [])) = false ->
  exists st', m4 (S (length sin)) [] fs sin = Some (Exit 0 st') /\ stdout st' = sin.
Proof.
  intros Hg Hm Hl. unfold m4. rewrite start_plain.
  destruct (run_plain builtin_table (length sin) sin [] sin true fs [] [] [] (S (length sin)))
    as (st' & E & Ho).
  { apply Nat.le_refl. }
  { rewrite readable_plain. reflexivity. }
  { exact Hg. }
  { exact Hm. }
  { exact Hl. }
  { apply Nat.lt_succ_diag_r. }
  exists st'. split; [exact E | exact Ho].
Qed.

Lemma m4_pass_through_witness :
  exists st', m4 (S (length (bytes "x + y;
"))) [] [] (bytes "x + y;
") = Some (Exit 0 st') /\ stdout st' = bytes "x + y;
".
Proof.
  apply (m4_pass_through [] (bytes "x + y;
")).
  - rewrite Forall_forall. intros b Hb. simpl in Hb. unfold good_byte.
    repeat destruct Hb as [<-|Hb]; try lia; contradiction.
  - rewrite Forall_forall. intros t Ht. vm_compute in Ht.
    repeat (destruct Ht as [<-|Ht]; [vm_compute; reflexivity|]). contradiction.
  - vm_compute. reflexivity.
Defined.

(** C6 (defect of the map size): [int map[UCHAR_MAX]] has 255 slots
    (0..254), not 256; the initialisation covers those slots, each lookup
    of a byte below 255 reads [-1], and the lookup of byte value 255 is
    out of bounds. *)
Theorem translit_map_255_slots :
  length map_init = 255%nat /\
  (forall b, 0 <= b < 255 -> map_get map_init b = Some (-1)) /\
  map_get map_init 255 = None /\
  translit [255] [] [] = None.
Proof.
  split; [reflexivity|]. split; [|split; reflexivity].
  intros b Hb. unfold map_get, map_init.
  apply nth_error_repeat. unfold UCHAR_MAX. lia.
Qed.

(** C10: when the readable input is an identifier up to its end, the next
    round of the main loop flushes diversion 0, reads the identifier to the
    end of input and goes to shutdown: nothing of it is written anywhere,
    the symbol table is not consulted, and the state handed to the
    end-of-input checks differs from the flushed one only in the emptied
    input stream. *)
Theorem trailing_ident_discarded st c cs f :
  readable st = c :: cs -> is_id_start c = true -> forallb is_id_char cs = true ->
  exists i s st0, out_div 0 st = Ok tt st0 /\
    run (S f) st = Some (end_of_input (with_stream st0 i s)) /\
    readable (with_stream st0 i s) = [].
Proof.
  intros Hr Hs Hcs.
  set (st0 := set_div (set_stdout st (stdout st ++ div_at st 0)) 0 []).
  destruct (getword_ident_eof st0 c cs) as (i & s & Eg & Er);
    [exact (eq_trans (readable_flush st) Hr) | exact Hs | exact Hcs |].
  exists i, s, st0. split; [reflexivity|]. split; [|exact Er].
  rewrite run_S. unfold step, bind at 1.
  replace (out_div 0 st) with (@Ok unit tt st0) by reflexivity.
  unfold bind at 1, read_token. rewrite Eg. reflexivity.
Qed.

Lemma trailing_ident_discarded_witness :
  exists i s st0, out_div 0 (start_state [] (bytes "abc") true []) = Ok tt st0 /\
    run 1 (start_state [] (bytes "abc") true []) = Some (end_of_input (with_stream st0 i s)) /\
    readable (with_stream st0 i s) = [].
Proof.
  apply (trailing_ident_discarded (start_state [] (bytes "abc") true []) 97 [98; 99] 0);
    reflexivity.
Defined.

(** ** C2: pushing a string back onto a buffer *)

Lemma MOF_spec x y : 0 <= x -> 0 <= y -> Buf.MOF x y = (SIZE_MAX <? x * y).
Proof.
  intros Hx Hy. unfold Buf.MOF. destruct (Z.eqb_spec x 0) as [->|Hx0].
  - simpl. reflexivity.
  - simpl. pose proof (Z.mul_succ_div_gt SIZE_MAX x ltac:(lia)) as H1.
    pose proof (Z.mul_div_le SIZE_MAX x ltac:(lia)) as H2.
    destruct (Z.ltb_spec (SIZE_MAX / x) y); destruct (Z.ltb_spec SIZE_MAX (x * y));
      try reflexivity; exfalso; nia.
Qed.

Lemma AOF_spec x y : Buf.AOF x y = (SIZE_MAX <? x + y).
Proof. unfold Buf.AOF. destruct (Z.ltb_spec (SIZE_MAX - y) x); destruct (Z.ltb_spec SIZE_MAX (x + y)); lia. Qed.

Lemma grow_buf_a f b n b' : Buf.grow_buf f b n = Some b' -> Buf.a b' = Buf.a b.
Proof.
  unfold Buf.grow_buf. intros H.
  destruct (n <=? Buf.free_size b); [injection H; intros; subst; reflexivity|].
  destruct (Buf.MOF (Buf.s b) 2); [discriminate|].
  destruct (Buf.AOF (Buf.s b * 2) n); [discriminate|].
  destruct (f (Buf.s b * 2 + n)); [|discriminate].
  injection H; intros; subst; reflexivity.
Qed.

Lemma schar_not_eof c : 0 < c < 255 -> schar c <> EOF.
Proof. unfold schar, EOF. intros H. zbool. Qed.

(** Growing a full buffer by one byte fails only when the doubled size
    overflows [SIZE_MAX] or [realloc] fails. *)
Lemma grow_buf_none_full f b : Z.of_nat (length (Buf.a b)) = Buf.s b ->
  Buf.grow_buf f b 1 = None -> SIZE_MAX < Buf.s b * 2 + 1 \/ f (Buf.s b * 2 + 1) = false.
Proof.
  intros Hs. unfold Buf.grow_buf, Buf.free_size. rewrite <- Hs, Z.sub_diag. cbn [Z.leb Z.compare].
  rewrite Hs, MOF_spec, AOF_spec by lia.
  destruct (Z.ltb_spec SIZE_MAX (Buf.s b * 2)); [left; lia|].
  destruct (Z.ltb_spec SIZE_MAX (Buf.s b * 2 + 1)); [left; lia|].
  destruct (f (Buf.s b * 2 + 1)); [discriminate | right; reflexivity].
Qed.

Lemma ungetch_push f b c : 0 < c < 255 ->
  exists b1 x, Buf.ungetch f b (schar c) = (b1, x) /\
    ((x <> EOF /\ Buf.readable b1 = c :: Buf.readable b) \/
     (x = EOF /\ b1 = b /\ Z.of_nat (length (Buf.a b)) = Buf.s b /\ Buf.grow_buf f b 1 = None)).
Proof.
  intros Hc. unfold Buf.ungetch.
  rewrite (to_char_schar c) by (unfold byte_ok; lia).
  destruct (Z.eqb_spec (Z.of_nat (length (Buf.a b))) (Buf.s b)) as [Hfull|].
  - destruct (Buf.grow_buf f b 1) as [b'|] eqn:G.
    + do 2 eexists. split; [reflexivity|]. left. split; [apply schar_not_eof; exact Hc|].
      unfold Buf.readable. simpl. rewrite rev_app_distr, (grow_buf_a f b 1 b' G). reflexivity.
    + do 2 eexists. split; [reflexivity|]. right. auto.
  - do 2 eexists. split; [reflexivity|]. left. split; [apply schar_not_eof; exact Hc|].
    unfold Buf.readable. simpl. rewrite rev_app_distr. reflexivity.
Qed.

Lemma ungetstr_loop_suffix f : forall l b b' r,
  Forall (fun c => 0 < c < 255) l -> Buf.ungetstr_loop f b l = (b', r) ->
  (r = 0 /\ Buf.readable b' = rev l ++ Buf.readable b) \/
  (r = 1 /\ Z.of_nat (length (Buf.a b')) = Buf.s b' /\ Buf.grow_buf f b' 1 = None /\
   exists pre post, rev l = pre ++ post /\ Buf.readable b' = post ++ Buf.readable b).
Proof.
  induction l as [|c l IH]; intros b b' r Hl H.
  - simpl in H. injection H; intros; subst. left. auto.
  - inversion Hl as [|? ? Hc Hl']; subst. simpl in H.
    destruct (ungetch_push f b c Hc) as (b1 & x & E & [[Hx Hr] | (Hx & -> & Hfull & G)]);
      rewrite E in H.
    + destruct (Z.eqb_spec x EOF); [contradiction|].
      destruct (IH b1 b' r Hl' H) as [[-> Hr'] | (-> & Hf' & G' & pre & post & Ep & Hr')].
      * left. split; [reflexivity|]. rewrite Hr', Hr. simpl. rewrite <- app_assoc. reflexivity.
      * right. split; [reflexivity|]. split; [exact Hf'|]. split; [exact G'|].
        exists pre, (post ++ [c]). simpl. rewrite Ep.
        split; [rewrite app_assoc; reflexivity|].
        rewrite Hr', Hr, <- app_assoc. reflexivity.
    + rewrite Hx, Z.eqb_refl in H. injection H; intros; subst.
      right. split; [reflexivity|]. split; [exact Hfull|]. split; [exact G|].
      exists (rev (c :: l)), []. rewrite app_nil_r. auto.
Qed.

Lemma cstr_range str : Forall (fun c => 0 <= c < 255) str -> Forall (fun c => 0 < c < 255) (cstr str).
Proof.
  induction str as [|c r IH]; intros H; simpl; [constructor|].
  inversion H as [|? ? Hc Hr]; subst. destruct (Z.eqb_spec c 0); [constructor|].
  constructor; [lia | auto].
Qed.

(** C2 (counterexample): with a buffer of 511 bytes in a capacity of 512
    and every [realloc] failing, pushing "ab" stores the "b", then fails
    on the "a": the call reports failure and the stream has grown by the
    "b", so it is neither the success outcome nor the unchanged stream. *)
Lemma ungetstr_partial_push :
  let b := Buf.mk_buf (repeat 32 511) 512 in
  Buf.ungetstr (fun _ => false) b (bytes "ab") = (Buf.mk_buf (repeat 32 511 ++ [98]) 512, 1) /\
  ~ ((1 = 0 /\ Buf.readable (Buf.mk_buf (repeat 32 511 ++ [98]) 512) = cstr (bytes "ab") ++ Buf.readable b) \/
     (1 <> 0 /\ Buf.readable (Buf.mk_buf (repeat 32 511 ++ [98]) 512) = Buf.readable b)).
Proof.
  split; [vm_compute; reflexivity|].
  intros [[H _] | [_ H]]; [discriminate|].
  unfold Buf.readable in H. cbn [Buf.a] in H. apply (f_equal (@length Z)) in H.
  rewrite !length_rev, length_app, repeat_length in H. simpl in H. lia.
Qed.

(** C2 (amended): for every allocator behaviour, [ungetstr] of a string of
    bytes below 255 either succeeds (0) with the string in front of the
    prior readable contents, or fails (1) with a suffix of the string
    pushed in front of them: bytes already pushed are not taken back.  It
    fails only on an allocation failure: the buffer it leaves is full, and
    growing it by one byte fails, because the new size would exceed
    [SIZE_MAX] or [realloc] to that size fails. *)
Theorem ungetstr_outcome f b str b' r :
  Forall (fun c => 0 <= c < 255) str -> Buf.ungetstr f b str = (b', r) ->
  (r = 0 /\ Buf.readable b' = cstr str ++ Buf.readable b) \/
  (r = 1 /\ Z.of_nat (length (Buf.a b')) = Buf.s b' /\ Buf.grow_buf f b' 1 = None /\
   (SIZE_MAX < Buf.s b' * 2 + 1 \/ f (Buf.s b' * 2 + 1) = false) /\
   exists pre post, cstr str = pre ++ post /\ Buf.readable b' = post ++ Buf.readable b).
Proof.
  intros Hs H. unfold Buf.ungetstr in H.
  pose proof (cstr_range str Hs) as Hc.
  apply ungetstr_loop_suffix in H; [|apply Forall_rev; exact Hc].
  rewrite rev_involutive in H. destruct H as [H | (-> & Hf & G & H)]; [left; exact H|].
  right. split; [reflexivity|]. split; [exact Hf|]. split; [exact G|].
  split; [exact (grow_buf_none_full f b' Hf G) | exact H].
Qed.

Lemma ungetstr_outcome_witness :
  Forall (fun c => 0 <= c < 255) (bytes "ab") /\
  Buf.ungetstr (fun _ => false) (Buf.mk_buf (repeat 32 511) 512) (bytes "ab") =
    (Buf.mk_buf (repeat 32 511 ++ [98]) 512, 1) /\
  ((1 = 0 /\ Buf.readable (Buf.mk_buf (repeat 32 511 ++ [98]) 512) =
      cstr (bytes "ab") ++ Buf.readable (Buf.mk_buf (repeat 32 511) 512)) \/
   (1 = 1 /\ Z.of_nat (length (Buf.a (Buf.mk_buf (repeat 32 511 ++ [98]) 512))) =
      Buf.s (Buf.mk_buf (repeat 32 511 ++ [98]) 512) /\
    Buf.grow_buf (fun _ => false) (Buf.mk_buf (repeat 32 511 ++ [98]) 512) 1 = None /\
    (SIZE_MAX < Buf.s (Buf.mk_buf (repeat 32 511 ++ [98]) 512) * 2 + 1 \/
     (fun _ => false) (Buf.s (Buf.mk_buf (repeat 32 511 ++ [98]) 512) * 2 + 1) = false) /\
    exists pre post, cstr (bytes "ab") = pre ++ post /\
      Buf.readable (Buf.mk_buf (repeat 32 511 ++ [98]) 512) =
        post ++ Buf.readable (Buf.mk_buf (repeat 32 511) 512))).
Proof.
  assert (Hs : Forall (fun c => 0 <= c < 255) (bytes "ab")) by (repeat constructor; lia).
  assert (E : Buf.ungetstr (fun _ => false) (Buf.mk_buf (repeat 32 511) 512) (bytes "ab") =
    (Buf.mk_buf (repeat 32 511 ++ [98]) 512, 1)) by (vm_compute; reflexivity).
  split; [exact Hs|]. split; [exact E|].
  exact (ungetstr_outcome (fun _ => false) _ _ _ _ Hs E).
Defined.

(** ** C7: [undivert] without arguments *)

Lemma list_11 {A} (l : list A) : length l = 11%nat ->
  exists d0 d1 d2 d3 d4 d5 d6 d7 d8 d9 d10, l = [d0; d1; d2; d3; d4; d5; d6; d7; d8; d9; d10].
Proof.
  intros H. do 11 (destruct l as [|? l]; [discriminate|]).
  destruct l; [|discriminate]. do 11 eexists. reflexivity.
Qed.

(** C7 (counterexample): with diversion 1 active and "a" in diversion 0,
    [undivert] without arguments is a fatal error: nothing is written to
    standard output and diversion 0 keeps its contents. *)
Lemma undivert_from_diversion_one :
  let st := set_act_div (set_diversion (start_state [] [] true []) ([97] :: repeat [] 10)) 1 in
  match bi_no_args (bytes "undivert") st with
  | Quit st' => stdout st' = [] /\ div_at st' 0 = [97]
  | _ => False
  end.
Proof. vm_compute. split; reflexivity. Qed.

(** C7 (amended): when the active diversion is 0, [undivert] without
    arguments appends diversions 0 to 9 to standard output in ascending
    order and empties each of them; nothing else in the state changes.
    From any other active diversion it is a fatal error: the message
    "undivert: Can only call from diversion 0 when called without
    arguments" goes to stderr and the program quits. *)
Theorem undivert_flush st :
  length (diversion st) = 11%nat ->
  (act_div st = 0 ->
   bi_no_args (bytes "undivert") st =
     Ok tt (set_diversion (set_stdout st (stdout st ++ concat (firstn 10 (diversion st))))
              (repeat [] 10 ++ skipn 10 (diversion st)))) /\
  (act_div st <> 0 ->
   bi_no_args (bytes "undivert") st =
     Quit (set_stderr st (stderr st ++
       bytes "undivert: Can only call from diversion 0 when called without arguments" ++ [10]))).
Proof.
  intros Hl. split.
  - intros Ha. destruct st as [i sn rs fs h qo qd ad dv sk lq rq o e]; simpl in Ha, Hl |- *.
    subst ad. destruct (list_11 dv Hl) as (d0 & d1 & d2 & d3 & d4 & d5 & d6 & d7 & d8 & d9 & d10 & ->).
    unfold bi_no_args. cbv -[app].
    rewrite <- !app_assoc, app_nil_r. reflexivity.
  - intros Ha.
    assert (E : bi_no_args (bytes "undivert") = fun st =>
      if negb (act_div st =? 0) then
        equit ("undivert: Can only call from diversion 0" ++ " when called without arguments") st
      else undivert_all st) by reflexivity.
    rewrite E. cbv beta. rewrite (proj2 (Z.eqb_neq (act_div st) 0) Ha). reflexivity.
Qed.

Lemma undivert_flush_witness :
  length (diversion (set_diversion (start_state [] [] true []) ([97] :: [] :: [98] :: repeat [] 8))) = 11%nat /\
  bi_no_args (bytes "undivert")
    (set_diversion (start_state [] [] true []) ([97] :: [] :: [98] :: repeat [] 8)) =
    Ok tt (set_diversion
      (set_stdout (set_diversion (start_state [] [] true []) ([97] :: [] :: [98] :: repeat [] 8))
         (stdout (set_diversion (start_state [] [] true []) ([97] :: [] :: [98] :: repeat [] 8)) ++
          concat (firstn 10 (diversion (set_diversion (start_state [] [] true [])
                                         ([97] :: [] :: [98] :: repeat [] 8))))))
      (repeat [] 10 ++ skipn 10 (diversion (set_diversion (start_state [] [] true [])
                                         ([97] :: [] :: [98] :: repeat [] 8))))).
Proof.
  assert (H1 : act_div (set_diversion (start_state [] [] true []) ([97] :: [] :: [98] :: repeat [] 8)) = 0)
    by reflexivity.
  assert (H2 : length (diversion (set_diversion (start_state [] [] true [])
                 ([97] :: [] :: [98] :: repeat [] 8))) = 11%nat) by reflexivity.
  split; [exact H2|].
  exact (proj1 (undivert_flush _ H2) H1).
Defined.

(** ** C8: the symbol-table invariant *)

Lemma bytes_eqb_eq : forall x y, bytes_eqb x y = true -> x = y.
Proof.
  induction x as [|a x IH]; intros [|b y] H; try discriminate; [reflexivity|].
  simpl in H. apply andb_prop in H as [H1 H2]. apply Z.eqb_eq in H1. subst.
  f_equal. apply IH. exact H2.
Qed.

Lemma cstr_idem s : cstr (cstr s) = cstr s.
Proof.
  induction s as [|c r IH]; [reflexivity|]. simpl.
  destruct (Z.eqb_spec c 0); [reflexivity|]. simpl.
  destruct (Z.eqb_spec c 0); [contradiction|]. rewrite IH. reflexivity.
Qed.

Lemma In_chain_update name def : forall c e, In e (chain_update name def c) ->
  In e c \/ exists e0, In e0 c /\ streq name (e_name e0) = true /\
    e = mk_entry (e_name e0) (option_map cstr def).
Proof.
  induction c as [|e0 c IH]; intros e H; [contradiction|]. simpl in H.
  destruct (streq name (e_name e0)) eqn:E.
  - destruct H as [<- | H]; [right; exists e0; simpl; auto | left; right; exact H].
  - destruct H as [<- | H]; [left; left; reflexivity|].
    destruct (IH e H) as [H' | (e1 & H1 & H2 & H3)]; [left; right; exact H'|].
    right. exists e1. simpl. auto.
Qed.

Lemma chain_find_split name : forall c pre f post,
  chain_find name c = Some (pre, f, post) -> c = pre ++ f :: post.
Proof.
  induction c as [|e c IH]; intros pre f post H; [discriminate|]. simpl in H.
  destruct (streq name (e_name e)).
  - injection H; intros; subst. reflexivity.
  - destruct (chain_find name c) as [[[pre' f'] post']|] eqn:E; [|discriminate].
    injection H; intros; subst. simpl. f_equal. apply IH. reflexivity.
Qed.

Lemma upsert_ok t name def : table_ok t -> cstr name <> [] ->
  (def = None -> In (cstr name) builtin_bytes) -> table_ok (upsert_entry t name def).
Proof.
  intros Ht Hn Hd k e. unfold upsert_entry, set_bucket. cbv beta zeta.
  destruct (lookup_entry t name) as [found|];
    (destruct (Z.eqb_spec k (hash_str name)) as [->|Hk]; [intros Hin | exact (Ht k e)]).
  - destruct (In_chain_update name def _ e Hin) as [H | (e0 & H0 & Hs & ->)];
      [exact (Ht _ e H)|].
    destruct (Ht _ e0 H0) as (N1 & N2 & N3).
    unfold streq in Hs. apply bytes_eqb_eq in Hs. rewrite N2 in Hs.
    split; [exact N1|]. split; [exact N2|]. simpl. intros Hn0.
    rewrite <- Hs. apply Hd. destruct def; [discriminate|reflexivity].
  - destruct Hin as [<- | H]; [|exact (Ht _ e H)].
    split; [exact Hn|]. split; [apply cstr_idem|]. simpl. intros Hn0.
    apply Hd. destruct def; [discriminate|reflexivity].
Qed.

Lemma delete_ok t name t' : table_ok t -> delete_entry t name = Some t' -> table_ok t'.
Proof.
  intros Ht H k e Hin. unfold delete_entry in H.
  destruct (chain_find name (t (hash_str name))) as [[[pre f] post]|] eqn:E; [|discriminate].
  apply chain_find_split in E.
  assert (Hsub : forall e, In e (pre ++ post) -> In e (t (hash_str name))).
  { intros e1 H1. rewrite E. apply in_app_or in H1 as [H1|H1]; apply in_or_app; simpl; auto. }
  destruct pre; injection H; intros <-; unfold set_bucket in Hin;
    destruct (k =? hash_str name) eqn:Ek; try exact (Ht k e Hin);
    [contradiction | exact (Ht _ e (Hsub e Hin))].
Qed.

Lemma builtin_names_ok : Forall (fun n => cstr (bytes n) = bytes n /\ bytes n <> []) builtin_names.
Proof. unfold builtin_names. repeat (constructor; [split; [reflexivity | discriminate] |]). constructor. Qed.

Lemma builtin_fold_ok : forall l t, table_ok t -> incl l builtin_names ->
  table_ok (fold_left (fun h n => upsert_entry h (bytes n) None) l t).
Proof.
  induction l as [|n l IH]; intros t Ht Hl; [exact Ht|]. simpl. apply IH.
  - assert (Hn : In n builtin_names) by (apply Hl; left; reflexivity).
    pose proof (proj1 (Forall_forall _ _) builtin_names_ok n Hn) as [Hc Hne].
    apply upsert_ok; [exact Ht | rewrite Hc; exact Hne |].
    intros _. rewrite Hc. apply in_map. exact Hn.
  - intros x Hx. apply Hl. right. exact Hx.
Qed.

(** C8 (counterexample): [define] with an empty first argument stores an
    entry whose name is empty: after [define(,x)] the lookup of the empty
    name finds the entry with name [] and definition "x". *)
Lemma define_empty_name :
  match m4 20 [] [] (bytes "define(,x)") with
  | Some (Exit 0 st) => lookup_entry (ht st) [] = Some (mk_entry [] (Some [120]))
  | _ => False
  end.
Proof. vm_compute. reflexivity. Qed.

(** C8 (amended): [table_ok] (every entry has a non-empty NUL-free name, and
    an absent definition only under a built-in name) holds of the table
    after the built-ins are inserted, is preserved by [upsert_entry] with a
    definition for a name whose first byte is not NUL, by [upsert_entry]
    without definition for a built-in name, and by [delete_entry]. *)
Theorem table_ok_preserved :
  table_ok builtin_table /\
  (forall t name d, table_ok t -> cstr name <> [] -> table_ok (upsert_entry t name (Some d))) /\
  (forall t n, table_ok t -> In n builtin_names -> table_ok (upsert_entry t (bytes n) None)) /\
  (forall t name t', table_ok t -> delete_entry t name = Some t' -> table_ok t').
Proof.
  split; [|split; [|split]].
  - apply builtin_fold_ok; [intros k e H; contradiction | apply incl_refl].
  - intros t name d Ht Hn. apply upsert_ok; [exact Ht | exact Hn | discriminate].
  - intros t n Ht Hn. apply builtin_fold_ok with (l := [n]) (t := t);
      [exact Ht | intros x [<-|[]]; exact Hn].
  - exact delete_ok.
Qed.

Lemma table_ok_preserved_witness :
  table_ok (upsert_entry builtin_table (bytes "x") (Some (bytes "1"))).
Proof.
  destruct table_ok_preserved as (H0 & H1 & _).
  apply H1; [exact H0 | discriminate].
Defined.

(** ** C9: the arithmetic built-ins *)

Lemma isdigit_schar b : byte_ok b -> isdigit (schar b) = isdigit b.
Proof.
  unfold byte_ok; intros Hb. destruct (Z.ltb_spec b 128).
  - rewrite schar_small by lia. reflexivity.
  - unfold schar. rewrite (proj2 (Z.leb_le 128 b)) by lia.
    rewrite !isdigit_large by lia. reflexivity.
Qed.

Lemma fold_dstep_mono : forall r v, 0 <= v -> forallb isdigit r = true -> v <= fold_left dstep r v.
Proof.
  induction r as [|c r IH]; intros v Hv H; simpl; [lia|].
  simpl in H. apply andb_prop in H as [Hc H]. unfold isdigit in Hc.
  apply andb_prop in Hc as [H1 H2]. apply Z.leb_le in H1, H2.
  specialize (IH (dstep v c)). unfold dstep in *. assert (IH' := IH ltac:(lia) H). lia.
Qed.

Lemma stn_loop_spec : forall s n len, Forall byte_ok s -> 0 <= n <= SIZE_MAX -> 0 <= len ->
  stn_loop n len s =
    if forallb isdigit s && (fold_left dstep s n <=? SIZE_MAX) then
      (if (len =? 0) && (match s with [] => true | _ => false end) then None
       else Some (fold_left dstep s n))
    else None.
Proof.
  induction s as [|ch r IH]; intros n len Hs Hn Hl.
  - simpl. rewrite (proj2 (Z.leb_le n SIZE_MAX)) by lia. rewrite andb_true_r. reflexivity.
  - inversion Hs as [|? ? Hch Hr]; subst. simpl.
    rewrite isdigit_schar by exact Hch.
    destruct (isdigit ch) eqn:Hd; [|reflexivity]. simpl.
    assert (Hsc : schar ch = ch).
    { unfold isdigit in Hd. apply andb_prop in Hd as [_ H2]. apply Z.leb_le in H2.
      apply schar_small. lia. }
    rewrite Hsc.
    assert (Hdg : 48 <= ch <= 57).
    { unfold isdigit in Hd. apply andb_prop in Hd as [H1 H2]. apply Z.leb_le in H1, H2. lia. }
    rewrite MOF_spec, AOF_spec by lia.
    change (fold_left dstep r (dstep n ch)) with (fold_left dstep (ch :: r) n).
    destruct (Z.ltb_spec SIZE_MAX (n * 10)).
    + destruct (forallb isdigit r) eqn:Hr'; [|reflexivity]. simpl.
      pose proof (fold_dstep_mono r (dstep n ch) ltac:(unfold dstep; lia) Hr').
      destruct (Z.leb_spec (fold_left dstep r (dstep n ch)) SIZE_MAX); [|reflexivity].
      unfold dstep in *. lia.
    + destruct (Z.ltb_spec SIZE_MAX (n * 10 + (ch - 48))).
      * destruct (forallb isdigit r) eqn:Hr'; [|reflexivity]. simpl.
        pose proof (fold_dstep_mono r (dstep n ch) ltac:(unfold dstep; lia) Hr').
        destruct (Z.leb_spec (fold_left dstep r (dstep n ch)) SIZE_MAX); [|reflexivity].
        unfold dstep in *. lia.
      * rewrite IH by (auto; lia). unfold dstep.
        rewrite (proj2 (Z.eqb_neq (len + 1) 0)) by lia. rewrite andb_false_r. reflexivity.
Qed.

Lemma cstr_Forall (P : Z -> Prop) s : Forall P s -> Forall P (cstr s).
Proof.
  induction s as [|c r IH]; intros H; simpl; [constructor|].
  inversion H; subst. destruct (c =? 0); [constructor | constructor; auto].
Qed.

Lemma dec_value_dstep s : dec_value s = fold_left dstep s 0.
Proof. reflexivity. Qed.

Lemma str_to_num_spec s : Forall byte_ok s -> str_to_num s = spec_num s.
Proof.
  intros Hs. unfold str_to_num, spec_num. rewrite dec_value_dstep.
  rewrite stn_loop_spec by (try apply cstr_Forall; auto; unfold SIZE_MAX; lia).
  destruct (cstr s) as [|c r]; simpl; [reflexivity|].
  destruct (isdigit c && forallb isdigit r && (fold_left dstep r (dstep 0 c) <=? SIZE_MAX));
    reflexivity.
Qed.

Lemma spec_num_range s n : spec_num s = Some n -> 0 <= n <= SIZE_MAX.
Proof.
  unfold spec_num. rewrite dec_value_dstep.
  destruct (negb (Nat.eqb (length (cstr s)) 0) && forallb isdigit (cstr s)) eqn:E;
    [|intros H; discriminate].
  destruct (Z.leb_spec (fold_left dstep (cstr s) 0) SIZE_MAX) as [Hle|Hgt]; [|intros H; discriminate].
  simpl. intros H. injection H; intros <-. split; [|lia].
  apply fold_dstep_mono; [lia|]. apply andb_prop in E as [_ E]. exact E.
Qed.

Lemma nth_some_In {A} : forall (l : list (option A)) n b, nth n l None = Some b -> In (Some b) l.
Proof.
  induction l as [|x l IH]; intros [|n] b H; simpl in H; try discriminate.
  - left. exact H.
  - right. exact (IH n b H).
Qed.

Lemma ARG_ok m k : args_ok m -> Forall byte_ok (ARG m k).
Proof.
  intros Hm. unfold ARG, arg_buf. destruct (nth (Z.to_nat k) (m_args m) None) as [b|] eqn:E;
    [|constructor].
  apply cstr_Forall. apply nth_some_In in E.
  exact (proj1 (Forall_forall _ _) Hm _ E).
Qed.

Lemma fold_none (g : Z -> Z -> option Z) : forall l,
  fold_left (fun acc x => match acc with
      | None => None
      | Some w => match spec_num x with None => None | Some n => g w n end
      end) l None = None.
Proof. induction l; simpl; auto. Qed.

Lemma spec_fold_cons g w x xs : spec_fold g w (x :: xs) =
  if nonempty x then
    match spec_num x with
    | None => None
    | Some n => match g w n with None => None | Some w' => spec_fold g w' xs end
    end
  else spec_fold g w xs.
Proof.
  unfold spec_fold. simpl. destruct (nonempty x); [|reflexivity]. simpl.
  destruct (spec_num x) as [n|]; [|apply fold_none]. destruct (g w n); [reflexivity|apply fold_none].
Qed.

Section Fold.

Variable f : Z -> Z -> string + Z.
Variable g : Z -> Z -> option Z.
Hypothesis f_g : forall w n, 0 <= w <= SIZE_MAX -> 0 <= n <= SIZE_MAX -> result_val (f w n) = g w n.
Hypothesis g_range : forall w n w', 0 <= w <= SIZE_MAX -> 0 <= n <= SIZE_MAX ->
  g w n = Some w' -> 0 <= w' <= SIZE_MAX.

Lemma fold_args_spec m bad : args_ok m -> forall ks w, 0 <= w <= SIZE_MAX ->
  result_val (fold_args m bad f ks w) = spec_fold g w (map (ARG m) ks).
Proof.
  intros Hm. induction ks as [|k ks IH]; intros w Hw; [reflexivity|].
  simpl. rewrite spec_fold_cons. destruct (nonempty (ARG m k)); [|apply IH; exact Hw].
  rewrite str_to_num_spec by (apply ARG_ok; exact Hm).
  destruct (spec_num (ARG m k)) as [n|] eqn:En; [|reflexivity].
  pose proof (spec_num_range _ _ En) as Hn.
  rewrite <- (f_g w n Hw Hn). destruct (f w n) as [e|w'] eqn:Ef; [reflexivity|].
  simpl. apply IH. apply (g_range w n); auto. rewrite <- (f_g w n Hw Hn), Ef. reflexivity.
Qed.

Lemma first_arg_fold_spec m nm : args_ok m ->
  result_val (first_arg_fold m nm f) = spec_arith_first g (ARG m).
Proof.
  intros Hm. unfold first_arg_fold, spec_arith_first.
  destruct (nonempty (ARG m 1)); [|reflexivity]. cbn [negb].
  rewrite str_to_num_spec by (apply ARG_ok; exact Hm).
  destruct (spec_num (ARG m 1)) as [w|] eqn:Ew; [|reflexivity].
  apply fold_args_spec; [exact Hm|]. exact (spec_num_range _ _ Ew).
Qed.

End Fold.

Ltac op_tac := intros; unfold result_val;
  repeat (rewrite ?MOF_spec, ?AOF_spec by lia);
  repeat match goal with
    | |- context [?x <=? ?y] => destruct (Z.leb_spec x y)
    | |- context [?x <? ?y] => destruct (Z.ltb_spec x y)
    | |- context [?x =? ?y] => destruct (Z.eqb_spec x y)
    end; try reflexivity; try lia.

Lemma add_ok w n : 0 <= w <= SIZE_MAX -> 0 <= n <= SIZE_MAX -> result_val (add_step w n) = spec_add_op w n.
Proof. unfold add_step, spec_add_op. op_tac. Qed.
Lemma mult_ok w n : 0 <= w <= SIZE_MAX -> 0 <= n <= SIZE_MAX -> result_val (mult_step w n) = spec_mult_op w n.
Proof. unfold mult_step, spec_mult_op. op_tac. Qed.
Lemma sub_ok w n : 0 <= w <= SIZE_MAX -> 0 <= n <= SIZE_MAX -> result_val (sub_step w n) = spec_sub_op w n.
Proof. unfold sub_step, spec_sub_op. op_tac. Qed.
Lemma div_ok w n : 0 <= w <= SIZE_MAX -> 0 <= n <= SIZE_MAX -> result_val (div_step w n) = spec_div_op w n.
Proof. unfold div_step, spec_div_op. op_tac. Qed.
Lemma mod_ok w n : 0 <= w <= SIZE_MAX -> 0 <= n <= SIZE_MAX -> result_val (mod_step w n) = spec_mod_op w n.
Proof. unfold mod_step, spec_mod_op. op_tac. Qed.

Lemma add_range w n w' : 0 <= w <= SIZE_MAX -> 0 <= n <= SIZE_MAX -> spec_add_op w n = Some w' -> 0 <= w' <= SIZE_MAX.
Proof. unfold spec_add_op. intros Hw Hn. destruct (Z.leb_spec (w + n) SIZE_MAX); intros Hs; inversion Hs; lia. Qed.
Lemma mult_range w n w' : 0 <= w <= SIZE_MAX -> 0 <= n <= SIZE_MAX -> spec_mult_op w n = Some w' -> 0 <= w' <= SIZE_MAX.
Proof. unfold spec_mult_op. intros Hw Hn. destruct (Z.leb_spec (w * n) SIZE_MAX); intros Hs; inversion Hs; nia. Qed.
Lemma sub_range w n w' : 0 <= w <= SIZE_MAX -> 0 <= n <= SIZE_MAX -> spec_sub_op w n = Some w' -> 0 <= w' <= SIZE_MAX.
Proof. unfold spec_sub_op. intros Hw Hn. destruct (Z.leb_spec n w); intros Hs; inversion Hs; lia. Qed.
Lemma div_range w n w' : 0 <= w <= SIZE_MAX -> 0 <= n <= SIZE_MAX -> spec_div_op w n = Some w' -> 0 <= w' <= SIZE_MAX.
Proof.
  unfold spec_div_op. intros Hw Hn. destruct (Z.eqb_spec n 0); intros Hs; inversion Hs; subst.
  split; [apply Z.div_pos; lia|]. transitivity w; [|lia]. apply Z.div_le_upper_bound; nia.
Qed.
Lemma mod_range w n w' : 0 <= w <= SIZE_MAX -> 0 <= n <= SIZE_MAX -> spec_mod_op w n = Some w' -> 0 <= w' <= SIZE_MAX.
Proof.
  unfold spec_mod_op. intros Hw Hn. destruct (Z.eqb_spec n 0); intros Hs; inversion Hs; subst.
  pose proof (Z.mod_pos_bound w n ltac:(lia)). lia.
Qed.

Lemma fold_dstep_shift : forall y v,
  fold_left dstep y v = v * 10 ^ Z.of_nat (length y) + fold_left dstep y 0.
Proof.
  induction y as [|c y IH]; intros v; cbn [fold_left length]; [simpl; lia|].
  rewrite (IH (dstep v c)), (IH (dstep 0 c)). unfold dstep.
  rewrite Nat2Z.inj_succ, Z.pow_succ_r by lia. ring.
Qed.

Lemma dec_aux_value : forall f n acc, 0 <= n < 10 ^ Z.of_nat f ->
  dec_value (dec_aux f n acc) = n * 10 ^ Z.of_nat (length acc) + dec_value acc /\
  forallb isdigit (dec_aux f n acc) = forallb isdigit acc.
Proof.
  induction f as [|f IH]; intros n acc Hn.
  - simpl in Hn. assert (n = 0) by lia. subst. simpl. auto.
  - rewrite Nat2Z.inj_succ, Z.pow_succ_r in Hn by lia.
    pose proof (Z.mod_pos_bound n 10 ltac:(lia)) as Hm.
    pose proof (Z.div_mod n 10 ltac:(lia)) as Hd.
    assert (Hc : dec_value ((48 + n mod 10) :: acc) =
                 n mod 10 * 10 ^ Z.of_nat (length acc) + dec_value acc).
    { rewrite !dec_value_dstep. cbn [fold_left]. rewrite fold_dstep_shift. unfold dstep. ring. }
    assert (Hg : forallb isdigit ((48 + n mod 10) :: acc) = forallb isdigit acc).
    { cbn [forallb]. unfold isdigit at 1. rewrite (proj2 (Z.leb_le 48 _)), (proj2 (Z.leb_le _ 57)) by lia. reflexivity. }
    cbn [dec_aux]. destruct (Z.ltb_spec n 10).
    + rewrite Hc, Hg. rewrite Z.mod_small by lia. auto.
    + destruct (IH (n / 10) ((48 + n mod 10) :: acc)) as [H1 H2].
      { split; [apply Z.div_pos; lia|]. apply Z.div_lt_upper_bound; lia. }
      rewrite H1, H2, Hc, Hg. split; [|reflexivity].
      cbn [length]. rewrite Nat2Z.inj_succ, Z.pow_succ_r by lia. nia.
Qed.

Lemma dec_ok w : 0 <= w <= SIZE_MAX -> dec_value (dec w) = w /\ forallb isdigit (dec w) = true.
Proof.
  intros Hw. unfold dec.
  assert (H24 : SIZE_MAX < 10 ^ Z.of_nat 24) by reflexivity.
  destruct (dec_aux_value 24 w [] ltac:(lia)) as [H1 H2].
  rewrite H1, H2. split; [cbn [length Z.of_nat dec_value fold_left]; rewrite Z.pow_0_r; ring | reflexivity].
Qed.

Lemma is_cstr s c lit : cstr s = c -> is s lit = bytes_eqb c (cstr (bytes lit)).
Proof. intros H. unfold is, streq. rewrite H. reflexivity. Qed.

Lemma dispatch_add m st : cstr (m_name m) = bytes "add" -> bi_with_args m st = push_num (bi_add m) st.
Proof. intros H. unfold bi_with_args, is, streq. rewrite H. reflexivity. Qed.

Lemma dispatch_mult m st : cstr (m_name m) = bytes "mult" -> bi_with_args m st = push_num (bi_mult m) st.
Proof. intros H. unfold bi_with_args, is, streq. rewrite H. reflexivity. Qed.
Lemma dispatch_sub m st : cstr (m_name m) = bytes "sub" -> bi_with_args m st = push_num (bi_sub m) st.
Proof. intros H. unfold bi_with_args, is, streq. rewrite H. reflexivity. Qed.
Lemma dispatch_div m st : cstr (m_name m) = bytes "div" -> bi_with_args m st = push_num (bi_div m) st.
Proof. intros H. unfold bi_with_args, is, streq. rewrite H. reflexivity. Qed.
Lemma dispatch_mod m st : cstr (m_name m) = bytes "mod" -> bi_with_args m st = push_num (bi_mod m) st.
Proof. intros H. unfold bi_with_args, is, streq. rewrite H. reflexivity. Qed.

(** C9: on a frame whose arguments hold bytes, the results of [add],
    [mult], [sub], [div] and [mod] (a fatal error being [None]) are those of
    the spec's folds over the non-empty arguments: [add] from 0 and [mult]
    from 1 over arguments 1..9, and [sub], [div], [mod] from the required
    argument 1 over arguments 2..9, with fatal errors on a non-numeric
    argument, a value above [SIZE_MAX], overflow, underflow and a zero
    divisor.  A call of one of them pushes its result in decimal ([dec]
    gives the digits of a value up to [SIZE_MAX]), and the five examples
    of the spec give "14 15 55 2 1". *)
Theorem arith_builtins_spec :
  (forall m, args_ok m ->
     result_val (bi_add m) = spec_arith_all spec_add_op 0 (ARG m) /\
     result_val (bi_mult m) = spec_arith_all spec_mult_op 1 (ARG m) /\
     result_val (bi_sub m) = spec_arith_first spec_sub_op (ARG m) /\
     result_val (bi_div m) = spec_arith_first spec_div_op (ARG m) /\
     result_val (bi_mod m) = spec_arith_first spec_mod_op (ARG m)) /\
  (forall m st, cstr (m_name m) = bytes "add" -> bi_with_args m st = push_num (bi_add m) st) /\
  (forall m st, cstr (m_name m) = bytes "mult" -> bi_with_args m st = push_num (bi_mult m) st) /\
  (forall m st, cstr (m_name m) = bytes "sub" -> bi_with_args m st = push_num (bi_sub m) st) /\
  (forall m st, cstr (m_name m) = bytes "div" -> bi_with_args m st = push_num (bi_div m) st) /\
  (forall m st, cstr (m_name m) = bytes "mod" -> bi_with_args m st = push_num (bi_mod m) st) /\
  (forall w, 0 <= w <= SIZE_MAX -> dec_value (dec w) = w /\ forallb isdigit (dec w) = true) /\
  out_of (m4 1000 [] [] (bytes "add(8, 2, 4) mult( , 5, , 3) sub(80, 20, 5) div(5, 2) mod(5, 2)."))
    = bytes "14 15 55 2 1.".
Proof.
  split; [|split; [exact dispatch_add|split; [exact dispatch_mult|split; [exact dispatch_sub|
    split; [exact dispatch_div|split; [exact dispatch_mod|split; [exact dec_ok|]]]]]]].
  - intros m Hm. split; [|split; [|split; [|split]]].
    + apply fold_args_spec; [exact add_ok | exact add_range | exact Hm | unfold SIZE_MAX; lia].
    + apply fold_args_spec; [exact mult_ok | exact mult_range | exact Hm | unfold SIZE_MAX; lia].
    + apply first_arg_fold_spec; [exact sub_ok | exact sub_range | exact Hm].
    + apply first_arg_fold_spec; [exact div_ok | exact div_range | exact Hm].
    + apply first_arg_fold_spec; [exact mod_ok | exact mod_range | exact Hm].
  - vm_compute. reflexivity.
Qed.

Lemma arith_builtins_spec_witness :
  result_val (bi_add (mk_mcall (bytes "add") None 1 3 [None; Some (bytes "8"); Some (bytes "2"); Some (bytes "4")]))
    = spec_arith_all spec_add_op 0
        (ARG (mk_mcall (bytes "add") None 1 3 [None; Some (bytes "8"); Some (bytes "2"); Some (bytes "4")])).
Proof.
  destruct arith_builtins_spec as [H _].
  apply H. unfold args_ok. simpl.
  repeat constructor; unfold byte_ok; lia.
Defined.

(** ** C5: the expansion of a user-defined macro *)

Lemma digit_test h : 0 < h < 256 ->
  isdigit (schar h) && negb (h =? 48) = (49 <=? h) && (h <=? 57).
Proof.
  intros Hh. rewrite isdigit_schar by (unfold byte_ok; lia). unfold isdigit. zbool.
Qed.

Lemma sub_args_spec args : forall n d, (length d <= n)%nat -> Forall (fun c => 0 < c < 256) d ->
  sub_args d args = spec_subst d (fun k => nth (Z.to_nat k) args None).
Proof.
  induction n as [|n IH]; intros d Hn Hd; (destruct d as [|ch r]; [reflexivity|]);
    [simpl in Hn; lia|].
  inversion Hd as [|? ? Hch Hr]; subst. simpl in Hn. cbn [sub_args spec_subst].
  rewrite (proj2 (Z.eqb_neq ch 0)) by lia.
  destruct (ch =? 36); [|rewrite IH by (auto; lia); reflexivity].
  destruct r as [|h r']; [reflexivity|].
  inversion Hr as [|? ? Hh Hr']; subst. simpl in Hn.
  rewrite digit_test by exact Hh.
  destruct ((49 <=? h) && (h <=? 57)).
  - rewrite (IH r') by (auto; lia). destruct (nth (Z.to_nat (h - 48)) args None); reflexivity.
  - rewrite (IH (h :: r')) by (simpl; auto; lia). reflexivity.
Qed.

Lemma sub_args_push args : forall n d, (length d <= n)%nat -> Forall push_ok d ->
  Forall (fun a => match a with Some b => Forall push_ok b | None => True end) args ->
  Forall push_ok (sub_args d args).
Proof.
  induction n as [|n IH]; intros d Hn Hd Ha; (destruct d as [|ch r]; [constructor|]);
    [simpl in Hn; lia|].
  inversion Hd as [|? ? Hch Hr]; subst. simpl in Hn. cbn [sub_args].
  rewrite (proj2 (Z.eqb_neq ch 0)) by (unfold push_ok in Hch; lia).
  destruct (ch =? 36); [|constructor; [exact Hch | apply IH; auto; lia]].
  destruct r as [|h r']; [constructor; [exact Hch | constructor]|].
  inversion Hr as [|? ? Hh Hr']; subst. simpl in Hn.
  destruct (isdigit (schar h) && negb (h =? 48)).
  - destruct (nth (Z.to_nat (h - 48)) args None) as [b|] eqn:E.
    + apply Forall_app. split; [|apply IH; auto; lia].
      apply nth_some_In in E. exact (proj1 (Forall_forall _ _) Ha _ E).
    + apply IH; auto; lia.
  - constructor; [exact Hch|]. apply IH; simpl; auto; lia.
Qed.

Lemma streq_41 q : q <> 41 -> streq [41] [q] = false.
Proof.
  intros H. unfold streq. change (cstr [41]) with [41]. cbn [cstr].
  destruct (q =? 0); [reflexivity|]. cbn [cstr bytes_eqb].
  rewrite (proj2 (Z.eqb_neq 41 q)) by lia. reflexivity.
Qed.

Lemma free_loop_spec : forall f j args, length args = 10%nat -> (1 <= j <= 10)%nat ->
  (j + f = 11)%nat ->
  (free_loop f j args = false <-> forall k, (j <= k <= 9)%nat -> nth k args None <> None).
Proof.
  induction f as [|f IH]; intros j args Hl Hj Hf; [lia|]. simpl.
  destruct (Nat.eqb_spec j 10) as [->|Hj10].
  - rewrite (proj2 (nth_error_None args 10)) by lia. split; [intros _ k Hk; lia | reflexivity].
  - assert (Hlt : (j < length args)%nat) by lia.
    rewrite (nth_error_nth' args None Hlt).
    destruct (nth j args None) as [b|] eqn:Eb.
    + destruct (Nat.ltb_spec j 10); [|lia].
      rewrite (IH (S j) args Hl ltac:(lia) ltac:(lia)). split.
      * intros Hall k Hk. destruct (Nat.eq_dec k j) as [->|Hkj]; [rewrite Eb; discriminate|].
        apply Hall. lia.
      * intros Hall k Hk. apply Hall. lia.
    + split; [discriminate|]. intros Hall. exfalso. apply (Hall j); [lia | exact Eb].
Qed.

Lemma slot_null_dec (l : list (option (list Z))) :
  (exists k, (1 <= k <= 9)%nat /\ nth k l None = None) \/
  (forall k, (1 <= k <= 9)%nat -> nth k l None <> None).
Proof.
  destruct (existsb (fun k => match nth k l None with None => true | Some _ => false end) (seq 1 9)) eqn:E.
  - left. apply existsb_exists in E as (k & Hk & Hn). apply in_seq in Hk.
    exists k. split; [lia|]. destruct (nth k l None); [discriminate | reflexivity].
  - right. intros k Hk Hn.
    assert (Hin : existsb (fun k => match nth k l None with None => true | Some _ => false end) (seq 1 9) = true).
    { apply existsb_exists. exists k. split; [apply in_seq; lia | rewrite Hn; reflexivity]. }
    congruence.
Qed.

(** [free_mcall] stays inside [arg_buf] exactly when one of the slots
    1..9 is NULL. *)
Lemma free_mcall_ok m : length (m_args m) = 10%nat ->
  (free_mcall m = true <-> exists k, (1 <= k <= 9)%nat /\ nth k (m_args m) None = None).
Proof.
  intros Hl. unfold free_mcall. pose proof (free_loop_spec 10 1 (m_args m) Hl ltac:(lia) ltac:(lia)) as H.
  split.
  - intros Ht. destruct (slot_null_dec (m_args m)) as [(k & Hk & Hn) | Hall]; [eauto|].
    apply H in Hall. congruence.
  - intros (k & Hk & Hn). destruct (free_loop 10 1 (m_args m)) eqn:E; [reflexivity|].
    exfalso. apply (proj1 H eq_refl k Hk Hn).
Qed.

Lemma arg_end_user st m ms d : stack st = m :: ms -> m_def m = Some d -> free_mcall m = true ->
  Forall push_ok (sub_args d (m_args m)) ->
  exists st', arg_end st = Ok tt st' /\
    readable st' = sub_args d (m_args m) ++ readable st /\ stack st' = ms.
Proof.
  intros Hs Hd Hf Hp.
  set (st2 := set_stack st (set_bd m (m_bd m - 1) :: ms)).
  destruct (unget_str_ok (sub_args d (m_args m)) st2 Hp) as (st3 & E3 & R3 & S3).
  exists (set_stack st3 ms).
  assert (R2 : readable st2 = readable st) by (unfold st2; destruct st; reflexivity).
  assert (R4 : readable (set_stack st3 ms) = readable st3) by (destruct st3; reflexivity).
  split; [|split; [rewrite R4, R3, R2; reflexivity | destruct st3; reflexivity]].
  unfold arg_end, bind, set_top, modify, get. rewrite Hs. fold st2.
  cbn [stack set_stack st2 m_def set_bd m_args]. rewrite Hd. rewrite E3.
  unfold pop_frame, modify.
  assert (Hs3 : stack st3 = set_bd m (m_bd m - 1) :: ms).
  { rewrite S3. reflexivity. }
  rewrite Hs3. change (free_mcall (set_bd m (m_bd m - 1))) with (free_mcall m). rewrite Hf.
  reflexivity.
Qed.

Lemma push_ok_range d : Forall push_ok d -> Forall (fun c => 0 < c < 256) d.
Proof. apply Forall_impl. unfold push_ok. intros; lia. Qed.

(** X21: when the next token is the [)] closing the call of a
    user-defined macro with fewer than nine argument buffers (top frame at
    bracket depth 1, with a NULL slot among [arg_buf[1..9]], outside
    quotes, quote characters other than [)]), the round of the main loop
    pops the frame and puts in front of the rest of the input the
    definition with each [$d], [d] in 1..9, replaced by argument buffer
    [d] (nothing when it is absent), and every other byte kept, [$0] and
    [$] before a non-digit included.  Definition and arguments hold bytes
    other than NUL and 0xFF. *)
Theorem user_macro_expansion st m ms d R :
  stack st = m :: ms -> m_bd m = 1 -> m_def m = Some d -> quote_on st = false ->
  left_quote st <> 41 -> right_quote st <> 41 -> readable st = 41 :: R ->
  Forall push_ok d ->
  Forall (fun a => match a with Some b => Forall push_ok b | None => True end) (m_args m) ->
  length (m_args m) = 10%nat -> (exists k, (1 <= k <= 9)%nat /\ nth k (m_args m) None = None) ->
  exists st', step st = Ok tt st' /\
    readable st' = spec_subst d (arg_buf m) ++ R /\ stack st' = ms.
Proof.
  intros Hs Hbd Hd Hq Hl Hr HR Hdok Hargs Hlen Hnull.
  set (st0 := set_div (set_stdout st (stdout st ++ div_at st 0)) 0 []).
  destruct (getword_single st0 41 R) as (i & s & Eg & Er);
    [exact (eq_trans (readable_flush st) HR) | reflexivity | unfold byte_ok; lia | lia |].
  set (st1 := with_stream st0 i s) in *.
  assert (Hp : Forall push_ok (sub_args d (m_args m)))
    by (apply (sub_args_push _ (length d)); auto).
  destruct (arg_end_user st1 m ms d) as (st' & Ea & Ra & Sa);
    [exact Hs | exact Hd | apply free_mcall_ok; assumption | exact Hp |].
  exists st'. split.
  2:{ split; [|exact Sa]. rewrite Ra, Er.
      rewrite (sub_args_spec _ (length d)) by (auto; apply push_ok_range; exact Hdok).
      reflexivity. }
  unfold step, bind at 1.
  replace (out_div 0 st) with (@Ok unit tt st0) by reflexivity.
  unfold bind at 1, read_token. rewrite Eg.
  cbv [bind get].
  change (left_quote st1) with (left_quote st). rewrite (streq_41 _ Hl).
  change (right_quote st1) with (right_quote st). rewrite (streq_41 _ Hr).
  change (quote_on st1) with (quote_on st). rewrite Hq.
  replace (ismacro (ht st1) [41]) with (@None entry) by reflexivity.
  change (stack st1) with (stack st). rewrite Hs, Hbd.
  exact Ea.
Qed.

Lemma user_macro_expansion_witness :
  exists st', step (set_stack (start_state [] [41; 46] true [])
                     [mk_mcall (bytes "m") (Some (bytes "<$1|$2|$0>")) 1 2
                        ([None; Some [97]; Some [98]] ++ repeat None 7)]) = Ok tt st' /\
    readable st' = spec_subst (bytes "<$1|$2|$0>")
                     (arg_buf (mk_mcall (bytes "m") (Some (bytes "<$1|$2|$0>")) 1 2
                        ([None; Some [97]; Some [98]] ++ repeat None 7))) ++ [46] /\
    stack st' = [].
Proof.
  apply (user_macro_expansion _ (mk_mcall (bytes "m") (Some (bytes "<$1|$2|$0>")) 1 2
                        ([None; Some [97]; Some [98]] ++ repeat None 7)) [] (bytes "<$1|$2|$0>") [46]);
    try reflexivity; try discriminate.
  - simpl. repeat constructor; unfold push_ok; lia.
  - simpl. repeat constructor; unfold push_ok; lia.
  - exists 3%nat. split; [lia | reflexivity].
Defined.

(** C5 (code bug): a call of a user-defined macro with nine arguments,
    the most [ARG_COMMA] lets a call collect, has its expansion pushed
    back, and then [REMOVE_SH] reads [arg_buf[10]], past the end of the
    array: the run is undefined.  With eight arguments the same macro
    expands and the run exits with status 0. *)
Theorem nine_arg_user_call_undefined :
  (exists st, m4 100 [] [] (bytes "define(m,$8)m(1,2,3,4,5,6,7,8)") = Some (Exit 0 st) /\
     stdout st = bytes "8") /\
  (exists st, m4 100 [] [] (bytes "define(m,$9)m(1,2,3,4,5,6,7,8,9)") = Some (Undefined st) /\
     readable st = bytes "9" /\
     exists m, stack st = [m] /\ forall k, (1 <= k <= 9)%nat -> nth k (m_args m) None <> None).
Proof.
  vm_compute. split.
  - eexists. split; reflexivity.
  - eexists. split; [reflexivity|]. split; [reflexivity|].
    eexists. split; [reflexivity|]. intros k Hk.
    do 10 (destruct k as [|k]; [try lia; discriminate|]). lia.
Qed.

(** * Further properties of the code *)

Lemma bytes_eqb_refl : forall x, bytes_eqb x x = true.
Proof. induction x as [|a x IH]; simpl; [reflexivity|]. rewrite Z.eqb_refl, IH. reflexivity. Qed.

Lemma streq_spec a b : streq a b = true <-> cstr a = cstr b.
Proof.
  unfold streq. split; [apply bytes_eqb_eq | intros ->; apply bytes_eqb_refl].
Qed.

Lemma streq_false a b : streq a b = false <-> cstr a <> cstr b.
Proof.
  destruct (streq a b) eqn:E; split; intros H; try congruence.
  - apply streq_spec in E. contradiction.
  - intros Hc. apply streq_spec in Hc. congruence.
Qed.

Lemma hash_loop_cstr : forall s h, hash_loop h s = hash_loop h (cstr s).
Proof.
  induction s as [|c r IH]; intros h; [reflexivity|]. simpl.
  destruct (Z.eqb_spec c 0); [reflexivity|]. simpl.
  destruct (Z.eqb_spec c 0); [contradiction|]. apply IH.
Qed.

Lemma hash_str_cstr s : hash_str s = hash_str (cstr s).
Proof. unfold hash_str. rewrite hash_loop_cstr. reflexivity. Qed.

Lemma streq_hash a b : streq a b = true -> hash_str a = hash_str b.
Proof. intros H. apply streq_spec in H. rewrite hash_str_cstr, H, <- hash_str_cstr. reflexivity. Qed.

Lemma streq_congr a b c : streq a b = true -> streq a c = streq b c.
Proof.
  intros H. apply streq_spec in H. destruct (streq b c) eqn:E.
  - apply streq_spec in E. apply streq_spec. congruence.
  - apply streq_false in E. apply streq_false. congruence.
Qed.

Lemma streq_cstr_r a b : streq a (cstr b) = streq a b.
Proof. unfold streq. rewrite cstr_idem. reflexivity. Qed.

Lemma chain_update_same n d n' : forall c e, chain_lookup n c = Some e -> streq n' n = true ->
  chain_lookup n' (chain_update n d c) = Some (mk_entry (e_name e) (option_map cstr d)).
Proof.
  induction c as [|e0 c IH]; intros e H Hs; [discriminate|]. simpl in H |- *.
  destruct (streq n (e_name e0)) eqn:E.
  - injection H as <-. simpl. rewrite (streq_congr n' n) by exact Hs. rewrite E. reflexivity.
  - simpl. rewrite (streq_congr n' n) by exact Hs. rewrite E. apply IH; auto.
Qed.

Lemma chain_update_other n d n' : forall c, streq n' n = false ->
  chain_lookup n' (chain_update n d c) = chain_lookup n' c.
Proof.
  induction c as [|e0 c IH]; intros Hs; [reflexivity|]. simpl.
  destruct (streq n (e_name e0)) eqn:E; simpl.
  - assert (E2 : streq n' (e_name e0) = false).
    { apply streq_false. apply streq_false in Hs. apply streq_spec in E. congruence. }
    rewrite E2. reflexivity.
  - rewrite IH by exact Hs. reflexivity.
Qed.

(** X1: after [upsert_entry(ht, name, def)] the definition found for
    [name] is the new one (as a C string, or NULL for a built-in), and
    the definition of every other name is unchanged. *)
Theorem upsert_get_def ht name def name' :
  get_def (upsert_entry ht name def) name' =
  if streq name' name then option_map cstr def else get_def ht name'.
Proof.
  unfold get_def, upsert_entry, lookup_entry. cbv zeta.
  destruct (chain_lookup name (ht (hash_str name))) as [e|] eqn:El; unfold set_bucket; cbv beta.
  - destruct (streq name' name) eqn:Es.
    + rewrite (streq_hash _ _ Es), Z.eqb_refl.
      rewrite (chain_update_same name def name' _ e El Es). reflexivity.
    + destruct (Z.eqb_spec (hash_str name') (hash_str name)) as [Eh|Eh]; [|reflexivity].
      rewrite Eh. rewrite chain_update_other by exact Es. reflexivity.
  - destruct (streq name' name) eqn:Es.
    + rewrite (streq_hash _ _ Es), Z.eqb_refl. simpl. rewrite streq_cstr_r, Es. reflexivity.
    + destruct (Z.eqb_spec (hash_str name') (hash_str name)) as [Eh|Eh]; [|reflexivity].
      simpl. rewrite streq_cstr_r, Es, Eh. reflexivity.
Qed.

Lemma chain_lookup_none_notin n : forall c, chain_lookup n c = None ->
  ~ In (cstr n) (map (fun e => cstr (e_name e)) c).
Proof.
  induction c as [|e c IH]; intros H; simpl; [auto|]. simpl in H.
  destruct (streq n (e_name e)) eqn:E; [discriminate|]. apply streq_false in E.
  intros [H1|H1]; [congruence | exact (IH H H1)].
Qed.

Lemma chain_update_names n d : forall c,
  map e_name (chain_update n d c) = map e_name c.
Proof.
  induction c as [|e c IH]; [reflexivity|]. simpl.
  destruct (streq n (e_name e)); simpl; rewrite ?IH; reflexivity.
Qed.

Lemma map_names_cstr (c c' : list entry) : map e_name c' = map e_name c ->
  map (fun e => cstr (e_name e)) c' = map (fun e => cstr (e_name e)) c.
Proof.
  intros H. rewrite <- (map_map e_name cstr c), <- (map_map e_name cstr c'), H. reflexivity.
Qed.

Lemma Forall_names (P : list Z -> Prop) (c c' : list entry) : map e_name c' = map e_name c ->
  Forall (fun e => P (e_name e)) c -> Forall (fun e => P (e_name e)) c'.
Proof.
  intros H HF. apply Forall_map. rewrite H. apply Forall_map. exact HF.
Qed.

Lemma chain_find_none n : forall c, chain_find n c = None <-> chain_lookup n c = None.
Proof.
  induction c as [|e c IH]; simpl; [tauto|].
  destruct (streq n (e_name e)); [split; discriminate|].
  destruct (chain_find n c) as [[[pre f] post]|]; split; intros H;
    try discriminate; try reflexivity; try (apply IH; reflexivity);
    apply IH in H; discriminate.
Qed.

Lemma chain_find_pre n : forall c pre f post, chain_find n c = Some (pre, f, post) ->
  Forall (fun e => streq n (e_name e) = false) pre /\ streq n (e_name f) = true.
Proof.
  induction c as [|e c IH]; intros pre f post H; [discriminate|]. simpl in H.
  destruct (streq n (e_name e)) eqn:E.
  - injection H; intros; subst. auto.
  - destruct (chain_find n c) as [[[pre' f'] post']|] eqn:Ef; [|discriminate].
    injection H; intros; subst. destruct (IH _ _ _ eq_refl). auto.
Qed.

Lemma chain_lookup_skip n' l1 f l2 : streq n' (e_name f) = false ->
  chain_lookup n' (l1 ++ f :: l2) = chain_lookup n' (l1 ++ l2).
Proof.
  intros H. induction l1 as [|e l1 IH]; simpl; [rewrite H; reflexivity|].
  destruct (streq n' (e_name e)); [reflexivity | exact IH].
Qed.

Lemma chain_lookup_none_all n l : Forall (fun e => streq n (e_name e) = false) l ->
  chain_lookup n l = None.
Proof. induction 1 as [|e l He _ IH]; simpl; [reflexivity|]. rewrite He. exact IH. Qed.

Lemma notin_streq n l : ~ In (cstr n) (map (fun e => cstr (e_name e)) l) ->
  Forall (fun e => streq n (e_name e) = false) l.
Proof.
  intros H. apply Forall_forall. intros e He. apply streq_false. intros Hc.
  apply H. rewrite Hc. apply in_map with (f := fun e => cstr (e_name e)). exact He.
Qed.

Lemma upsert_wf t name def : table_wf t -> table_wf (upsert_entry t name def).
Proof.
  intros Ht k. unfold upsert_entry. cbv zeta.
  destruct (lookup_entry t name) as [e|] eqn:El; unfold set_bucket;
    destruct (Z.eqb_spec k (hash_str name)) as [->|Hk]; try exact (Ht k).
  - destruct (Ht (hash_str name)) as [H1 H2].
    pose proof (chain_update_names name def (t (hash_str name))) as Hn. split.
    + exact (Forall_names (fun x => hash_str x = hash_str name) _ _ Hn H1).
    + rewrite (map_names_cstr _ _ Hn). exact H2.
  - destruct (Ht (hash_str name)) as [H1 H2]. split.
    + constructor; [simpl; rewrite <- hash_str_cstr; reflexivity | exact H1].
    + simpl. rewrite cstr_idem. constructor; [|exact H2].
      apply chain_lookup_none_notin. exact El.
Qed.

Lemma delete_wf t name t' : table_wf t -> delete_entry t name = Some t' -> table_wf t'.
Proof.
  intros Ht H k. unfold delete_entry in H.
  destruct (chain_find name (t (hash_str name))) as [[[pre f] post]|] eqn:E; [|discriminate].
  pose proof (chain_find_split name _ _ _ _ E) as Hs.
  destruct (Ht (hash_str name)) as [H1 H2]. rewrite Hs in H1, H2.
  destruct pre as [|p pre]; injection H as <-; unfold set_bucket;
    destruct (Z.eqb_spec k (hash_str name)) as [->|Hk]; try exact (Ht k).
  - split; constructor.
  - apply Forall_app in H1 as [H1a H1b]. inversion H1b; subst. split.
    + change (Forall (fun e => hash_str (e_name e) = hash_str name) ((p :: pre) ++ post)).
      apply Forall_app. auto.
    + change (NoDup (map (fun e => cstr (e_name e)) ((p :: pre) ++ post))).
      rewrite map_app in H2 |- *. exact (NoDup_remove_1 _ _ _ H2).
Qed.

Lemma builtin_wf : forall l t, table_wf t ->
  table_wf (fold_left (fun h n => upsert_entry h (bytes n) None) l t).
Proof.
  induction l as [|n l IH]; intros t Ht; [exact Ht|]. simpl. apply IH. apply upsert_wf. exact Ht.
Qed.

(** X2: the table built by [main] for the built-ins is well formed (each
    entry in the bucket of its name's hash, no name twice in a chain), and
    [upsert_entry] and a successful [delete_entry] keep it well formed. *)
Theorem table_wf_preserved :
  table_wf builtin_table /\
  (forall t name def, table_wf t -> table_wf (upsert_entry t name def)) /\
  (forall t name t', table_wf t -> delete_entry t name = Some t' -> table_wf t').
Proof.
  split; [|split; [exact upsert_wf | exact delete_wf]].
  apply builtin_wf. intros k. split; constructor.
Qed.

Lemma table_wf_preserved_witness :
  table_wf (upsert_entry builtin_table (bytes "x") (Some (bytes "1"))).
Proof.
  destruct table_wf_preserved as (H0 & H1 & _). apply H1. exact H0.
Defined.

(** X3: on a well formed table, after a successful [delete_entry] the
    deleted name is no longer found; names of other buckets are found as
    before, and so are all other names when the deleted entry was not the
    head of its chain. *)
Theorem delete_entry_lookup t n t' : table_wf t -> delete_entry t n = Some t' ->
  lookup_entry t' n = None /\
  (forall n', hash_str n' <> hash_str n -> lookup_entry t' n' = lookup_entry t n') /\
  (forall n', streq n' n = false ->
     (exists e c, t (hash_str n) = e :: c /\ streq n (e_name e) = false) ->
     lookup_entry t' n' = lookup_entry t n').
Proof.
  intros Ht H. unfold delete_entry in H.
  destruct (chain_find n (t (hash_str n))) as [[[pre f] post]|] eqn:E; [|discriminate].
  pose proof (chain_find_split n _ _ _ _ E) as Hs.
  destruct (chain_find_pre n _ _ _ _ E) as [Hpre Hf].
  assert (Hother : forall b, forall n', hash_str n' <> hash_str n ->
            lookup_entry (set_bucket t (hash_str n) b) n' = lookup_entry t n').
  { intros b n' Hn'. unfold lookup_entry, set_bucket.
    destruct (Z.eqb_spec (hash_str n') (hash_str n)); [contradiction | reflexivity]. }
  destruct pre as [|p pre]; injection H as <-.
  - split; [unfold lookup_entry, set_bucket; rewrite Z.eqb_refl; reflexivity|].
    split; [exact (Hother [])|].
    intros n' _ (e & c & Hc & He). rewrite Hs in Hc. injection Hc as <- _.
    rewrite Hf in He. discriminate.
  - split.
    + unfold lookup_entry, set_bucket. rewrite Z.eqb_refl.
      destruct (Ht (hash_str n)) as [_ H2]. rewrite Hs, map_app in H2.
      apply chain_lookup_none_all.
      change (Forall (fun e => streq n (e_name e) = false) ((p :: pre) ++ post)).
      apply Forall_app. split; [exact Hpre|].
      apply notin_streq. apply streq_spec in Hf. rewrite Hf.
      intros Hin. apply (NoDup_remove_2 _ _ _ H2). apply in_or_app. right. exact Hin.
    + split; [exact (Hother _)|].
      intros n' Hn' _. destruct (Z.eqb_spec (hash_str n') (hash_str n)) as [Eh|Eh];
        [|exact (Hother _ n' Eh)].
      unfold lookup_entry, set_bucket. rewrite Eh, Z.eqb_refl, Hs.
      symmetry. apply chain_lookup_skip.
      apply streq_false. apply streq_false in Hn'. apply streq_spec in Hf. congruence.
Qed.

Lemma delete_entry_lookup_witness :
  match delete_entry builtin_table (bytes "dnl") with
  | Some t' => lookup_entry t' (bytes "dnl") = None
  | None => False
  end.
Proof.
  assert (Hwf : table_wf builtin_table) by (apply builtin_wf; intros k; split; constructor).
  destruct (delete_entry builtin_table (bytes "dnl")) as [t'|] eqn:E.
  - exact (proj1 (delete_entry_lookup _ _ _ Hwf E)).
  - vm_compute in E. discriminate.
Defined.

Lemma dispatch_undefine m st : cstr (m_name m) = bytes "undefine" ->
  bi_with_args m st = match delete_entry (ht st) (ARG m 1) with
                      | None => Quit st
                      | Some h => Ok tt (set_ht st h)
                      end.
Proof. intros H. unfold bi_with_args, is, streq. rewrite H. reflexivity. Qed.

(** X4: [undefine(name)] of an undefined name is a silent fatal exit
    (QUIT, nothing on stderr); for a defined name it succeeds, and the
    new table is the one [delete_entry] returns. *)
Theorem undefine_spec m st : cstr (m_name m) = bytes "undefine" ->
  (lookup_entry (ht st) (ARG m 1) = None -> bi_with_args m st = Quit st) /\
  (lookup_entry (ht st) (ARG m 1) <> None ->
     exists t', delete_entry (ht st) (ARG m 1) = Some t' /\ bi_with_args m st = Ok tt (set_ht st t')).
Proof.
  intros Hn. rewrite dispatch_undefine by exact Hn. unfold delete_entry, lookup_entry.
  pose proof (chain_find_none (ARG m 1) (ht st (hash_str (ARG m 1)))) as Hf.
  split.
  - intros Hl. apply Hf in Hl. rewrite Hl. reflexivity.
  - intros Hl. destruct (chain_find (ARG m 1) (ht st (hash_str (ARG m 1)))) as [[[pre f] post]|];
      [|exfalso; apply Hl, Hf; reflexivity].
    destruct pre; eexists; split; reflexivity.
Qed.

Lemma undefine_spec_witness :
  bi_with_args (mk_mcall (bytes "undefine") None 0 1 [None; Some (bytes "foo")]) (start_state [] [] true [])
  = Quit (start_state [] [] true []).
Proof.
  apply (undefine_spec (mk_mcall (bytes "undefine") None 0 1 [None; Some (bytes "foo")])
           (start_state [] [] true []) eq_refl).
  vm_compute. reflexivity.
Defined.

Lemma grow_buf_room f b w b' :
  Z.of_nat (length (Buf.a b)) <= Buf.s b <= SIZE_MAX -> 0 <= w ->
  Buf.grow_buf f b w = Some b' ->
  Buf.a b' = Buf.a b /\ w <= Buf.free_size b' /\ Buf.s b <= Buf.s b' <= SIZE_MAX.
Proof.
  intros Hs Hw. unfold Buf.grow_buf, Buf.free_size.
  destruct (Z.leb_spec w (Buf.s b - Z.of_nat (length (Buf.a b)))).
  - intros [= <-]. split; [reflexivity | lia].
  - rewrite MOF_spec by lia. destruct (Z.ltb_spec SIZE_MAX (Buf.s b * 2)); [discriminate|].
    unfold Buf.AOF. destruct (Z.ltb_spec (SIZE_MAX - w) (Buf.s b * 2)); [discriminate|].
    destruct (f (Buf.s b * 2 + w)); [|discriminate]. intros [= <-]. simpl. split; [reflexivity | lia].
Qed.

(** X5: growing a buffer keeps its bytes and makes room for [will_use]
    bytes without exceeding [SIZE_MAX]; it fails only when the new size
    [2 s + will_use] would exceed [SIZE_MAX] or the allocation fails. *)
Theorem grow_buf_spec f b w :
  Z.of_nat (length (Buf.a b)) <= Buf.s b <= SIZE_MAX -> 0 <= w ->
  match Buf.grow_buf f b w with
  | Some b' => Buf.a b' = Buf.a b /\ w <= Buf.free_size b' /\ Buf.s b <= Buf.s b' <= SIZE_MAX
  | None => Buf.free_size b < w /\
            (SIZE_MAX < Buf.s b * 2 + w \/ f (Buf.s b * 2 + w) = false)
  end.
Proof.
  intros Hs Hw. destruct (Buf.grow_buf f b w) as [b'|] eqn:E.
  - exact (grow_buf_room f b w b' Hs Hw E).
  - revert E. unfold Buf.grow_buf, Buf.free_size.
    destruct (Z.leb_spec w (Buf.s b - Z.of_nat (length (Buf.a b)))); [discriminate|].
    rewrite MOF_spec by lia. intros E. split; [lia|].
    destruct (Z.ltb_spec SIZE_MAX (Buf.s b * 2)); [left; lia|].
    unfold Buf.AOF in E. destruct (Z.ltb_spec (SIZE_MAX - w) (Buf.s b * 2)); [left; lia|].
    right. destruct (f (Buf.s b * 2 + w)); [discriminate | reflexivity].
Qed.

Lemma grow_buf_spec_witness :
  match Buf.grow_buf (fun _ => true) (Buf.mk_buf [1; 2] 2) 5 with
  | Some b' => Buf.a b' = [1; 2] /\ 5 <= Buf.free_size b'
  | None => False
  end.
Proof.
  pose proof (grow_buf_spec (fun _ => true) (Buf.mk_buf [1; 2] 2) 5
                ltac:(simpl; unfold SIZE_MAX; lia) ltac:(lia)) as H.
  revert H. destruct (Buf.grow_buf (fun _ => true) (Buf.mk_buf [1; 2] 2) 5) as [b'|].
  - intros (H1 & H2 & _). split; [exact H1 | exact H2].
  - intros (_ & [H | H]); [vm_compute in H | ]; discriminate.
Defined.

(** X6: [ungetch] either stores the byte [(char) ch] at the end of the
    buffer, keeping the length within the capacity, or, when the buffer
    is full and growing it by one byte fails (the new size would exceed
    [SIZE_MAX], or [realloc] fails), leaves the buffer unchanged and
    returns [EOF].  After a successful store the return value is also
    [EOF] exactly when the stored byte is 0xFF. *)
Theorem ungetch_spec f b ch b' r :
  Z.of_nat (length (Buf.a b)) <= Buf.s b <= SIZE_MAX ->
  Buf.ungetch f b ch = (b', r) ->
  (Buf.a b' = Buf.a b ++ [to_char ch] /\ Z.of_nat (length (Buf.a b')) <= Buf.s b' <= SIZE_MAX /\
   (r = EOF <-> to_char ch = 255)) \/
  (b' = b /\ r = EOF /\ Z.of_nat (length (Buf.a b)) = Buf.s b /\ Buf.grow_buf f b 1 = None /\
   (SIZE_MAX < Buf.s b * 2 + 1 \/ f (Buf.s b * 2 + 1) = false)).
Proof.
  intros Hs. unfold Buf.ungetch.
  assert (Hc : 0 <= to_char ch < 256) by (unfold to_char; apply Z.mod_pos_bound; lia).
  assert (Hr : schar (to_char ch) = EOF <-> to_char ch = 255)
    by (unfold schar, EOF; destruct (Z.leb_spec 128 (to_char ch)); lia).
  destruct (Z.eqb_spec (Z.of_nat (length (Buf.a b))) (Buf.s b)) as [Eq|Ne].
  - destruct (Buf.grow_buf f b 1) as [b1|] eqn:G.
    + destruct (grow_buf_room f b 1 b1 Hs ltac:(lia) G) as (Ha & Hf & Hs1).
      intros [= <- <-]. left. simpl. rewrite Ha, length_app. unfold Buf.free_size in Hf.
      rewrite Ha in Hf. simpl. split; [reflexivity|]. split; [lia | exact Hr].
    + intros [= <- <-]. right. split; [reflexivity|]. split; [reflexivity|].
      split; [exact Eq|]. split; [reflexivity | exact (grow_buf_none_full f b Eq G)].
  - intros [= <- <-]. left. simpl. rewrite length_app. simpl.
    split; [reflexivity|]. split; [lia | exact Hr].
Qed.

Lemma ungetch_spec_witness :
  Buf.ungetch (fun _ => true) (Buf.mk_buf [] 1) (-1) = (Buf.mk_buf [255] 1, EOF) /\ to_char (-1) = 255.
Proof.
  split; [reflexivity|].
  destruct (ungetch_spec (fun _ => true) (Buf.mk_buf [] 1) (-1) (Buf.mk_buf [255] 1) EOF
              ltac:(simpl; unfold SIZE_MAX; lia) eq_refl) as [(_ & _ & H) | (H & _ & _)];
    [apply H; reflexivity | discriminate].
Defined.

(** X7: [put_str] is atomic: it either appends the whole C string and
    returns 0 with the length within the capacity, or returns 1 and leaves
    the buffer unchanged. *)
Theorem put_str_spec f b str b' r :
  Z.of_nat (length (Buf.a b)) <= Buf.s b <= SIZE_MAX ->
  Buf.put_str f b str = (b', r) ->
  (r = 0 /\ Buf.a b' = Buf.a b ++ cstr str /\
   Z.of_nat (length (Buf.a b')) <= Buf.s b' <= SIZE_MAX) \/
  (r = 1 /\ b' = b).
Proof.
  intros Hs. unfold Buf.put_str. cbv zeta.
  destruct (Z.ltb_spec (Buf.free_size b) (Z.of_nat (length (cstr str)))).
  - destruct (Buf.grow_buf f b (Z.of_nat (length (cstr str)))) as [b1|] eqn:G.
    + destruct (grow_buf_room f b (Z.of_nat (length (cstr str))) b1 Hs ltac:(lia) G) as (Ha & Hf & Hs1).
      intros [= <- <-]. left. simpl. rewrite Ha, length_app. unfold Buf.free_size in Hf.
      rewrite Ha in Hf. split; [reflexivity|]. split; [reflexivity | lia].
    + intros [= <- <-]. right. split; reflexivity.
  - intros [= <- <-]. left. simpl. rewrite length_app. unfold Buf.free_size in *.
    split; [reflexivity|]. split; [reflexivity | lia].
Qed.

Lemma put_str_spec_witness :
  Buf.put_str (fun _ => false) (Buf.mk_buf [1] 2) (bytes "abc") = (Buf.mk_buf [1] 2, 1).
Proof.
  destruct (Buf.put_str (fun _ => false) (Buf.mk_buf [1] 2) (bytes "abc")) as [b' r] eqn:E.
  destruct (put_str_spec _ (Buf.mk_buf [1] 2) _ _ _ ltac:(simpl; unfold SIZE_MAX; lia) E)
    as [(-> & H & _) | (-> & ->)]; [vm_compute in H; discriminate | reflexivity].
Defined.

(** X8: [buf_dump_buf(dst, src)] either moves all of [src] to the end of
    [dst], returning 0 with [src] emptied, or returns 1 and leaves both
    buffers unchanged. *)
Theorem buf_dump_buf_spec f dst src dst' src' r :
  Z.of_nat (length (Buf.a dst)) <= Buf.s dst <= SIZE_MAX ->
  Buf.buf_dump_buf f dst src = (dst', src', r) ->
  (r = 0 /\ Buf.a dst' = Buf.a dst ++ Buf.a src /\ Buf.a src' = [] /\ Buf.s src' = Buf.s src /\
   Z.of_nat (length (Buf.a dst')) <= Buf.s dst' <= SIZE_MAX) \/
  (r = 1 /\ dst' = dst /\ src' = src).
Proof.
  intros Hs. unfold Buf.buf_dump_buf. cbv zeta.
  destruct (Z.ltb_spec (Buf.free_size dst) (Z.of_nat (length (Buf.a src)))).
  - destruct (Buf.grow_buf f dst (Z.of_nat (length (Buf.a src)))) as [d1|] eqn:G.
    + destruct (grow_buf_room f dst (Z.of_nat (length (Buf.a src))) d1 Hs ltac:(lia) G) as (Ha & Hf & Hs1).
      intros [= <- <- <-]. left. simpl. rewrite Ha, length_app. unfold Buf.free_size in Hf.
      rewrite Ha in Hf. repeat split; lia || reflexivity.
    + intros [= <- <- <-]. right. repeat split.
  - intros [= <- <- <-]. left. simpl. rewrite length_app. unfold Buf.free_size in *.
    repeat split; lia || reflexivity.
Qed.

Lemma buf_dump_buf_spec_witness :
  Buf.a (fst (fst (Buf.buf_dump_buf (fun _ => true) (Buf.mk_buf [1] 1) (Buf.mk_buf [2; 3] 4))))
    = [1; 2; 3].
Proof.
  destruct (Buf.buf_dump_buf (fun _ => true) (Buf.mk_buf [1] 1) (Buf.mk_buf [2; 3] 4))
    as [[d s'] r] eqn:E.
  destruct (buf_dump_buf_spec _ (Buf.mk_buf [1] 1) _ _ _ _ ltac:(simpl; unfold SIZE_MAX; lia) E)
    as [(_ & H & _) | (-> & _)]; [exact H | vm_compute in E; discriminate].
Defined.

(** terminate_args *)

Lemma cstr_app_nul : forall b, cstr (b ++ [0]) = cstr b.
Proof.
  induction b as [|c b IH]; [reflexivity|]. simpl. rewrite IH. reflexivity.
Qed.

Lemma length_replace_nth {A} : forall (l : list A) n x, length (replace_nth l n x) = length l.
Proof. induction l as [|y l IH]; intros [|n] x; simpl; auto. Qed.

Lemma nth_replace_nth {A} : forall (l : list A) n x k d, (n < length l)%nat ->
  nth k (replace_nth l n x) d = if Nat.eqb k n then x else nth k l d.
Proof.
  induction l as [|y l IH]; intros n x k d Hn; simpl in Hn; [lia|].
  destruct n as [|n], k as [|k]; simpl; try reflexivity. apply IH. lia.
Qed.

Lemma terminate_loop_spec : forall f j args, length args = 10%nat -> (1 <= j <= 10)%nat ->
  (j + f = 11)%nat ->
  (terminate_loop f j args = None <-> forall k, (j <= k <= 9)%nat -> nth k args None <> None) /\
  (forall args', terminate_loop f j args = Some args' ->
     length args' = 10%nat /\
     forall k, option_map cstr (nth k args' None) = option_map cstr (nth k args None)).
Proof.
  induction f as [|f IH]; intros j args Hl Hj Hf; [lia|]. simpl.
  destruct (Nat.eqb_spec j 10) as [->|Hj10].
  - rewrite (proj2 (nth_error_None args 10)) by lia. split; [|discriminate].
    split; [intros _ k Hk; lia | reflexivity].
  - assert (Hlt : (j < length args)%nat) by lia.
    rewrite (nth_error_nth' args None Hlt).
    destruct (nth j args None) as [b|] eqn:Eb.
    + destruct (Nat.ltb_spec j 10); [|lia].
      assert (Hl' : length (replace_nth args j (Some (b ++ [0]))) = 10%nat)
        by (rewrite length_replace_nth; exact Hl).
      destruct (IH (S j) _ Hl' ltac:(lia) ltac:(lia)) as [IH1 IH2].
      split.
      * rewrite IH1. split.
        -- intros Hall k Hk. destruct (Nat.eq_dec k j) as [->|Hkj]; [rewrite Eb; discriminate|].
           specialize (Hall k ltac:(lia)). rewrite nth_replace_nth in Hall by lia.
           destruct (Nat.eqb_spec k j); [contradiction | exact Hall].
        -- intros Hall k Hk. rewrite nth_replace_nth by lia.
           destruct (Nat.eqb_spec k j); [discriminate | apply Hall; lia].
      * intros args' Ht. destruct (IH2 args' Ht) as [Hl2 H2]. split; [exact Hl2|].
        intros k. rewrite H2, nth_replace_nth by lia.
        destruct (Nat.eqb_spec k j) as [->|]; [rewrite Eb; simpl; rewrite cstr_app_nul|]; reflexivity.
    + split.
      * split; [discriminate|]. intros Hall. exfalso. apply (Hall j); [lia | exact Eb].
      * intros args' [= <-]. auto.
Qed.

(** X9: on a frame with its ten argument slots, [terminate_args] reads
    [arg_buf[10]], one past the array, exactly when all of [arg_buf[1..9]]
    are allocated (a call with nine arguments); otherwise it succeeds and
    leaves every argument string [ARG(k)] unchanged. *)
Theorem terminate_args_spec m : length (m_args m) = 10%nat ->
  (terminate_args m = None <-> forall k, (1 <= k <= 9)%nat -> nth k (m_args m) None <> None) /\
  (forall m', terminate_args m = Some m' -> forall k, ARG m' k = ARG m k).
Proof.
  intros Hl. destruct (terminate_loop_spec 10 1 (m_args m) Hl ltac:(lia) ltac:(lia)) as [H1 H2].
  unfold terminate_args. split.
  - rewrite <- H1. destruct (terminate_loop 10 1 (m_args m)); split; congruence.
  - intros m' Ht k. destruct (terminate_loop 10 1 (m_args m)) as [args'|] eqn:E; [|discriminate].
    injection Ht as <-. destruct (H2 args' eq_refl) as [_ H3].
    unfold ARG, arg_buf. simpl. specialize (H3 (Z.to_nat k)).
    destruct (nth (Z.to_nat k) args' None), (nth (Z.to_nat k) (m_args m) None);
      simpl in H3; congruence.
Qed.

Lemma terminate_args_spec_witness :
  terminate_args (mk_mcall (bytes "define") None 0 9 (None :: repeat (Some [120]) 9)) = None.
Proof.
  apply (proj2 (proj1 (terminate_args_spec
    (mk_mcall (bytes "define") None 0 9 (None :: repeat (Some [120]) 9)) eq_refl))).
  intros k Hk. do 10 (destruct k as [|k]; [simpl; try lia; discriminate|]). lia.
Defined.

(** str_to_num and dec *)

Lemma dec_aux_nonempty : forall f n acc, (f <> O \/ acc <> []) -> dec_aux f n acc <> [].
Proof.
  induction f as [|f IH]; intros n acc H; [destruct H as [H|H]; [contradiction H; reflexivity | exact H]|].
  cbn [dec_aux]. destruct (n <? 10); [discriminate | apply IH; right; discriminate].
Qed.

Lemma dec_nonempty n : dec n <> [].
Proof. unfold dec. apply dec_aux_nonempty. left. discriminate. Qed.

Lemma digits_push_ok s : forallb isdigit s = true -> Forall push_ok s.
Proof.
  intros H. apply Forall_forall. intros x Hx. rewrite forallb_forall in H.
  specialize (H x Hx). unfold isdigit in H. apply andb_prop in H as [H1 H2].
  apply Z.leb_le in H1. apply Z.leb_le in H2. unfold push_ok. lia.
Qed.

(** X10: [str_to_num] reads back what [dec] (the "%lu" conversion) writes:
    for every [n] in [0, SIZE_MAX], parsing the decimal digits of [n]
    gives [n]. *)
Theorem str_to_num_dec n : 0 <= n <= SIZE_MAX -> str_to_num (dec n) = Some n.
Proof.
  intros Hn. destruct (dec_ok n Hn) as [Hv Hd].
  pose proof (digits_push_ok _ Hd) as Hp.
  rewrite str_to_num_spec by (eapply Forall_impl; [|exact Hp]; unfold push_ok, byte_ok; lia).
  unfold spec_num. rewrite cstr_id by exact Hp. rewrite Hd, Hv.
  destruct (dec n) eqn:E; [exfalso; exact (dec_nonempty n E)|].
  simpl. destruct (Z.leb_spec n SIZE_MAX); [reflexivity | lia].
Qed.

Lemma str_to_num_dec_witness : str_to_num (dec 18446744073709551615) = Some 18446744073709551615.
Proof. apply str_to_num_dec. unfold SIZE_MAX. lia. Defined.

(** incr *)

Lemma dispatch_incr m st : cstr (m_name m) = bytes "incr" ->
  bi_with_args m st =
  (match str_to_num (ARG m 1) with
   | None => equit "incr: Invalid number"
   | Some n => if Buf.AOF n 1 then equit "incr: Integer overflow"
               else unget_str (dec (n + 1))
   end) st.
Proof. intros H. unfold bi_with_args, is, streq. rewrite H. reflexivity. Qed.

(** X11: [incr(x)], for an argument [x] that is a decimal numeral of value
    [n < SIZE_MAX], pushes the decimal digits of [n + 1] in front of the
    input; for any other argument (not a numeral, or of value [SIZE_MAX])
    it is a fatal error. *)
Theorem incr_spec m st : cstr (m_name m) = bytes "incr" -> args_ok m ->
  (forall n, spec_num (ARG m 1) = Some n -> n < SIZE_MAX ->
     exists st', bi_with_args m st = Ok tt st' /\ readable st' = dec (n + 1) ++ readable st) /\
  ((spec_num (ARG m 1) = None \/ spec_num (ARG m 1) = Some SIZE_MAX) ->
     exists st', bi_with_args m st = Quit st').
Proof.
  intros Hn Ha. rewrite dispatch_incr by exact Hn.
  rewrite str_to_num_spec by (apply ARG_ok; exact Ha). split.
  - intros n Hs Hlt. rewrite Hs. rewrite AOF_spec.
    pose proof (spec_num_range _ _ Hs) as Hr.
    destruct (Z.ltb_spec SIZE_MAX (n + 1)); [lia|].
    destruct (dec_ok (n + 1) ltac:(lia)) as [_ Hd].
    destruct (unget_str_ok (dec (n + 1)) st (digits_push_ok _ Hd)) as (st' & E & Er & _).
    exists st'. auto.
  - intros [Hs | Hs]; rewrite Hs; [eexists; reflexivity|].
    rewrite AOF_spec. destruct (Z.ltb_spec SIZE_MAX (SIZE_MAX + 1)); [|unfold SIZE_MAX in *; lia].
    eexists; reflexivity.
Qed.

Lemma incr_spec_witness :
  exists st', bi_with_args (mk_mcall (bytes "incr") None 0 1 [None; Some (bytes "41")])
                (start_state [] [] true []) = Ok tt st' /\
              readable st' = dec 42 ++ readable (start_state [] [] true []).
Proof.
  apply (proj1 (incr_spec (mk_mcall (bytes "incr") None 0 1 [None; Some (bytes "41")])
                  (start_state [] [] true []) eq_refl
                  ltac:(repeat constructor; unfold byte_ok; lia)) 41);
    [vm_compute; reflexivity | unfold SIZE_MAX; lia].
Defined.

(** strip_def and sub_args *)

Lemma nth_empty_arg (args : list (option (list Z))) k :
  Forall (fun a => a = None \/ a = Some []) args ->
  nth k args None = None \/ nth k args None = Some [].
Proof.
  intros H. destruct (Nat.ltb_spec k (length args)).
  - rewrite Forall_forall in H. apply H. apply nth_In. exact H0.
  - left. apply nth_overflow. exact H0.
Qed.

(** X12: a definition expanded with [sub_args] over argument buffers that
    are all absent or empty gives the same text as [strip_def]: a user
    macro used without an argument list expands like a call with empty
    arguments. *)
Theorem strip_def_sub_args d args : Forall (fun a => a = None \/ a = Some []) args ->
  sub_args d args = strip_def d.
Proof.
  intros Ha. remember (length d) as n eqn:En. revert d En.
  induction n as [n IH] using (well_founded_induction lt_wf). intros d En.
  destruct d as [|ch r]; [reflexivity|]. simpl.
  destruct (ch =? 0); [reflexivity|].
  destruct (ch =? 36).
  - destruct r as [|h r']; [reflexivity|].
    destruct (isdigit (schar h) && negb (h =? 48)).
    + destruct (nth_empty_arg args (Z.to_nat (h - 48)) Ha) as [-> | ->];
        [|simpl]; apply (IH (length r')); simpl in En; auto; lia.
    + f_equal. apply (IH (length (h :: r'))); simpl in *; auto; lia.
  - f_equal. apply (IH (length r)); simpl in *; auto; lia.
Qed.

Lemma strip_def_sub_args_witness :
  sub_args (bytes "a$1b$2c") (None :: Some [] :: repeat None 8) = bytes "abc".
Proof.
  rewrite strip_def_sub_args by (repeat constructor; auto). reflexivity.
Defined.

(** include *)

Lemma dispatch_include m st : cstr (m_name m) = bytes "include" ->
  bi_with_args m st =
  match include (files st) (input st) (ARG m 1) with
  | Some i => Ok tt (set_input st i)
  | None => (emit_err (bytes "include: Failed to include file: " ++ ARG m 1 ++ [10]) ;;; quit) st
  end.
Proof. intros H. unfold bi_with_args, is, streq. rewrite H. reflexivity. Qed.

(** X13: [include(f)] of a regular file puts its contents in front of the
    input, so that the file is read next, first byte first, before the
    rest of the input; when [f] is not a regular file, the message
    "include: Failed to include file: f" goes to stderr and the run ends
    (QUIT). *)
Theorem include_spec m st : cstr (m_name m) = bytes "include" ->
  match file_lookup (files st) (ARG m 1) with
  | Some c => exists st', bi_with_args m st = Ok tt st' /\
                readable st' = c ++ readable st /\ st' = set_input st (input st')
  | None => exists st', bi_with_args m st = Quit st' /\
                stderr st' = stderr st ++ bytes "include: Failed to include file: " ++ ARG m 1 ++ [10]
  end.
Proof.
  intros Hn. rewrite dispatch_include by exact Hn. unfold include.
  destruct (file_lookup (files st) (ARG m 1)) as [c|].
  - eexists. split; [reflexivity|]. split.
    + unfold readable. destruct st; simpl. rewrite rev_app_distr, rev_involutive, app_assoc.
      reflexivity.
    + destruct st; reflexivity.
  - eexists. split; [reflexivity|]. destruct st; reflexivity.
Qed.

Lemma include_spec_witness :
  exists st', bi_with_args (mk_mcall (bytes "include") None 0 1 [None; Some (bytes "f")])
                (start_state [] [] true [(bytes "f", bytes "xy")]) = Ok tt st' /\
              readable st' = bytes "xy".
Proof.
  pose proof (include_spec (mk_mcall (bytes "include") None 0 1 [None; Some (bytes "f")])
                (start_state [] [] true [(bytes "f", bytes "xy")]) eq_refl) as H.
  assert (Hf : file_lookup (files (start_state [] [] true [(bytes "f", bytes "xy")]))
                (ARG (mk_mcall (bytes "include") None 0 1 [None; Some (bytes "f")]) 1)
              = Some (bytes "xy")) by reflexivity.
  rewrite Hf in H. destruct H as (st' & E & Er & _). exists st'. split; [exact E|].
  rewrite Er. reflexivity.
Defined.

(** Command-line files *)


Lemma fold_include fs : forall l inp, Forall (fun fn => file_lookup fs fn <> None) l ->
  fold_left (fun inp fn => match include fs inp fn with Some i => i | None => inp end) l inp =
  inp ++ rev (concat (map (contents_of fs) (rev l))).
Proof.
  induction l as [|fn l IH]; intros inp H; simpl; [rewrite app_nil_r; reflexivity|].
  inversion H as [|? ? Hfn Hl]; subst. rewrite IH by exact Hl.
  destruct (file_lookup fs fn) as [c|] eqn:Ec; [|contradiction].
  assert (Hc : contents_of fs fn = c) by (unfold contents_of; rewrite Ec; reflexivity).
  unfold include. rewrite Ec. rewrite map_app, concat_app. simpl. rewrite Hc.
  rewrite app_nil_r, rev_app_distr, app_assoc. reflexivity.
Qed.

(** X14: when every command line file exists, [main] leaves standard input
    unread and runs on the files' contents concatenated in command line
    order; when one of them is missing it exits with status 1 before any
    output. *)
Theorem m4_argv_files fuel argv fs sin : argv <> [] ->
  (Forall (fun fn => file_lookup fs fn <> None) argv ->
     exists st, m4 fuel argv fs sin = run fuel st /\ read_stdin st = false /\
       readable st = concat (map (contents_of fs) argv) /\
       st = start_state (input st) sin false fs) /\
  ((exists fn, In fn argv /\ file_lookup fs fn = None) ->
     exists st, m4 fuel argv fs sin = Some (Exit 1 st) /\ stdout st = [] /\ stderr st = []).
Proof.
  intros Hne. unfold m4. destruct argv as [|fn0 argv0] eqn:Ea; [contradiction Hne; reflexivity|].
  rewrite <- Ea. split.
  - intros Hall.
    assert (Hb : forallb (fun fn => match file_lookup fs fn with Some _ => true | None => false end)
                   argv = true).
    { apply forallb_forall. intros fn Hin. rewrite Forall_forall in Hall.
      specialize (Hall fn Hin). destruct (file_lookup fs fn); [reflexivity | contradiction]. }
    rewrite Hb. eexists. split; [reflexivity|]. split; [reflexivity|]. split; [|reflexivity].
    unfold readable. simpl. rewrite fold_include by (apply Forall_rev; exact Hall).
    simpl. rewrite rev_involutive, app_nil_r, rev_involutive. reflexivity.
  - intros (fn & Hin & Hn).
    assert (Hb : forallb (fun fn => match file_lookup fs fn with Some _ => true | None => false end)
                   argv = false).
    { apply not_true_iff_false. intros Hb. rewrite forallb_forall in Hb.
      specialize (Hb fn Hin). rewrite Hn in Hb. discriminate. }
    rewrite Hb. eexists. split; [reflexivity|]. split; reflexivity.
Qed.

Lemma m4_argv_files_witness :
  exists st, m4 0 [bytes "a"; bytes "b"] [(bytes "b", bytes "2"); (bytes "a", bytes "1")] (bytes "in")
               = run 0 st /\ read_stdin st = false /\ readable st = bytes "12".
Proof.
  destruct (proj1 (m4_argv_files 0 [bytes "a"; bytes "b"] [(bytes "b", bytes "2"); (bytes "a", bytes "1")]
                     (bytes "in") ltac:(discriminate))
              ltac:(repeat constructor; discriminate)) as (st & E & Hr & Hd & _).
  exists st. split; [exact E|]. split; [exact Hr|]. rewrite Hd. reflexivity.
Defined.

(** translit *)


Lemma map_get_mval mp k : 0 <= k -> (Z.to_nat k < length mp)%nat -> map_get mp k = Some (mval mp k).
Proof. intros _ H. unfold map_get, mval. apply nth_error_nth'. exact H. Qed.

Lemma map_set_ok mp k v : 0 <= k -> (Z.to_nat k < length mp)%nat ->
  exists mp', map_set mp k v = Some mp' /\ length mp' = length mp /\
    forall j, 0 <= j -> mval mp' j = if j =? k then v else mval mp j.
Proof.
  intros Hk Hl. unfold map_set. destruct (Nat.ltb_spec (Z.to_nat k) (length mp)); [|lia].
  eexists. split; [reflexivity|]. split; [apply length_replace_nth|].
  intros j Hj. unfold mval. rewrite nth_replace_nth by exact Hl.
  destruct (Nat.eqb_spec (Z.to_nat j) (Z.to_nat k)), (Z.eqb_spec j k); try reflexivity; lia.
Qed.

Lemma index_of_lt c : forall l i, index_of c l = Some i -> (i < length l)%nat.
Proof.
  induction l as [|x l IH]; intros i H; simpl in H; [discriminate|].
  destruct (x =? c); [injection H as <-; simpl; lia|].
  destruct (index_of c l) as [j|]; [|discriminate]. injection H as <-. simpl. specialize (IH j eq_refl). lia.
Qed.

Lemma tl_pairs_ok : forall p q mp, length mp = 255%nat ->
  Forall (fun c => 0 < c < 255) p -> Forall (fun c => 0 < c < 256) q ->
  exists mp', tl_pairs mp p q = Some (mp', skipn (Nat.min (length p) (length q)) p) /\
    length mp' = 255%nat /\
    forall k, 0 <= k -> mval mp' k =
      if mval mp k =? -1 then
        match index_of k (firstn (Nat.min (length p) (length q)) p) with
        | Some i => nth i q 0
        | None => -1
        end
      else mval mp k.
Proof.
  induction p as [|uc p IH]; intros q mp Hl Hp Hq.
  - exists mp. split; [reflexivity|]. split; [exact Hl|].
    intros k _. simpl. destruct (mval mp k =? -1) eqn:E; [apply Z.eqb_eq in E|]; auto.
  - destruct q as [|uc2 q].
    + exists mp. split; [reflexivity|]. split; [exact Hl|].
      intros k _. simpl. destruct (mval mp k =? -1) eqn:E; [apply Z.eqb_eq in E|]; auto.
    + inversion Hp as [|? ? Huc Hp']; subst. inversion Hq as [|? ? Huc2 Hq']; subst.
      simpl tl_pairs. rewrite map_get_mval by lia.
      destruct (Z.eqb_spec (mval mp uc) (-1)) as [Ex|Ex].
      * destruct (map_set_ok mp uc uc2 ltac:(lia) ltac:(lia)) as (mp1 & Es & Hl1 & Hv1).
        rewrite Es. destruct (IH q mp1 ltac:(lia) Hp' Hq') as (mp' & Et & Hl' & Hv').
        exists mp'. split; [exact Et|]. split; [exact Hl'|].
        intros k Hk. rewrite Hv' by exact Hk. rewrite Hv1 by exact Hk.
        change (firstn (Nat.min (length (uc :: p)) (length (uc2 :: q))) (uc :: p))
          with (uc :: firstn (Nat.min (length p) (length q)) p).
        cbn [index_of].
        destruct (Z.eqb_spec k uc) as [->|Hne].
        -- rewrite Ex, !Z.eqb_refl. destruct (Z.eqb_spec uc2 (-1)); [lia|]. reflexivity.
        -- destruct (Z.eqb_spec uc k); [lia|].
           destruct (mval mp k =? -1); [|reflexivity].
           destruct (index_of k _); reflexivity.
      * destruct (IH q mp Hl Hp' Hq') as (mp' & Et & Hl' & Hv').
        exists mp'. split; [exact Et|]. split; [exact Hl'|].
        intros k Hk. rewrite Hv' by exact Hk.
        change (firstn (Nat.min (length (uc :: p)) (length (uc2 :: q))) (uc :: p))
          with (uc :: firstn (Nat.min (length p) (length q)) p).
        cbn [index_of].
        destruct (Z.eqb_spec k uc) as [->|Hne].
        -- destruct (Z.eqb_spec (mval mp uc) (-1)); [contradiction|]. reflexivity.
        -- destruct (Z.eqb_spec uc k); [lia|].
           destruct (mval mp k =? -1); [|reflexivity].
           destruct (index_of k _); reflexivity.
Qed.

Lemma tl_rest_ok : forall p mp, length mp = 255%nat -> Forall (fun c => 0 < c < 255) p ->
  exists mp', tl_rest mp p = Some mp' /\ length mp' = 255%nat /\
    forall k, 0 <= k -> mval mp' k = if existsb (Z.eqb k) p then 0 else mval mp k.
Proof.
  induction p as [|uc p IH]; intros mp Hl Hp.
  - exists mp. auto.
  - inversion Hp as [|? ? Huc Hp']; subst. simpl tl_rest.
    destruct (map_set_ok mp uc 0 ltac:(lia) ltac:(lia)) as (mp1 & Es & Hl1 & Hv1).
    rewrite Es. destruct (IH mp1 ltac:(lia) Hp') as (mp' & Et & Hl' & Hv').
    exists mp'. split; [exact Et|]. split; [exact Hl'|].
    intros k Hk. rewrite Hv', Hv1 by exact Hk. cbn [existsb].
    destruct (Z.eqb k uc), (existsb (Z.eqb k) p); reflexivity.
Qed.

Lemma tl_apply_ok mp : length mp = 255%nat -> forall s, Forall (fun c => 0 < c < 255) s ->
  tl_apply mp s = Some (flat_map (fun c =>
    let x := mval mp c in
    if x =? -1 then [c] else if negb (x =? 0) then [to_char x] else []) s).
Proof.
  intros Hl. induction s as [|uc s IH]; intros Hs; [reflexivity|].
  inversion Hs as [|? ? Huc Hs']; subst. simpl tl_apply.
  rewrite map_get_mval by lia. rewrite (IH Hs'). cbn [flat_map].
  destruct (mval mp uc =? -1); [reflexivity|]. destruct (negb (mval mp uc =? 0)); reflexivity.
Qed.

Lemma cstr_nonzero s : Forall (fun c => c <> 0) (cstr s).
Proof.
  induction s as [|c s IH]; simpl; [constructor|].
  destruct (Z.eqb_spec c 0); [constructor | constructor; auto].
Qed.

Lemma flat_map_Forall_ext {A B} (P : A -> Prop) (f g : A -> list B) : forall l,
  Forall P l -> (forall x, P x -> f x = g x) -> flat_map f l = flat_map g l.
Proof.
  induction l as [|x l IH]; intros Hl H; [reflexivity|].
  inversion Hl; subst. simpl. rewrite H by assumption. rewrite IH by assumption. reflexivity.
Qed.

Lemma Forall_skipn' {A} (P : A -> Prop) : forall n l, Forall P l -> Forall P (skipn n l).
Proof. induction n as [|n IH]; intros [|x l] H; simpl; auto. inversion H; auto. Qed.

Lemma mval_init k : 0 <= k < 255 -> mval map_init k = -1.
Proof.
  intros Hk. unfold mval, map_init, UCHAR_MAX.
  rewrite (nth_indep _ 0 (-1)) by (rewrite repeat_length; lia). apply nth_repeat.
Qed.

(** X15: when no byte of [ARG(1)] or [ARG(2)] is 0xFF, [translit] maps each
    byte of [ARG(1)] on its own: a byte of [ARG(2)] at a position past the
    end of [ARG(3)] is deleted (even if it also occurs earlier), a byte
    first found at position [i] within the length of [ARG(3)] becomes
    byte [i] of [ARG(3)], and any other byte is kept. *)
Theorem translit_spec s from to :
  Forall (fun c => 0 <= c < 255) s -> Forall (fun c => 0 <= c < 255) from -> Forall byte_ok to ->
  translit s from to = Some (flat_map (tl_image (cstr from) (cstr to)) (cstr s)).
Proof.
  intros Hs Hf Ht. unfold translit, translit_map.
  pose proof (cstr_range s Hs) as Hs'. pose proof (cstr_range from Hf) as Hf'.
  assert (Ht' : Forall (fun c => 0 < c < 256) (cstr to)).
  { pose proof (cstr_Forall _ to Ht) as H1. pose proof (cstr_nonzero to) as H2.
    rewrite Forall_forall in *. intros x Hx. specialize (H1 x Hx). specialize (H2 x Hx).
    unfold byte_ok in H1. lia. }
  assert (Hl0 : length map_init = 255%nat) by reflexivity.
  destruct (tl_pairs_ok (cstr from) (cstr to) map_init Hl0 Hf' Ht') as (mp1 & E1 & Hl1 & Hv1).
  rewrite E1.
  destruct (tl_rest_ok _ mp1 Hl1 (Forall_skipn' _ (Nat.min (length (cstr from)) (length (cstr to))) _ Hf')) as (mp2 & E2 & Hl2 & Hv2).
  rewrite E2. rewrite (tl_apply_ok mp2 Hl2 _ Hs'). f_equal.
  apply (flat_map_Forall_ext _ _ _ _ Hs'). intros c Hc. cbv zeta.
  rewrite Hv2, Hv1, mval_init, Z.eqb_refl by lia. unfold tl_image. cbv zeta.
  destruct (existsb (Z.eqb c) _); [reflexivity|].
  destruct (index_of c _) as [i|] eqn:Ei; [|reflexivity].
  pose proof (index_of_lt _ _ _ Ei) as Hi. rewrite length_firstn in Hi.
  assert (Hin : 0 < nth i (cstr to) 0 < 256).
  { rewrite Forall_forall in Ht'. apply Ht'. apply nth_In. lia. }
  destruct (Z.eqb_spec (nth i (cstr to) 0) (-1)); [lia|].
  destruct (Z.eqb_spec (nth i (cstr to) 0) 0); [lia|]. simpl.
  rewrite to_char_id by (unfold byte_ok; lia). reflexivity.
Qed.

Lemma translit_spec_witness :
  translit (bytes "banana") (bytes "aba") (bytes "x") = Some (bytes "nn").
Proof.
  rewrite translit_spec by (repeat constructor; unfold byte_ok; lia). reflexivity.
Defined.

Lemma bind_read_token {B} st t st' (k : list Z -> M B) :
  getword st = GW_tok t st' -> (x <- read_token ;; k x) st = k t st'.
Proof. intros H. unfold bind, read_token. rewrite H. reflexivity. Qed.

Lemma streq_head_false c t q : c <> 0 -> c <> q -> streq (c :: t) [q] = false.
Proof.
  intros H0 Hq. unfold streq. simpl. destruct (Z.eqb_spec c 0); [contradiction|].
  destruct (Z.eqb_spec q 0); simpl; [reflexivity|].
  destruct (Z.eqb_spec c q); [contradiction | reflexivity].
Qed.

Lemma id_start_nonzero c : is_id_start c = true -> c <> 0.
Proof. intros H ->. discriminate. Qed.

Lemma id_start_not c q : is_id_start c = true -> is_id_start q = false -> c <> q.
Proof. intros H1 H2 ->. congruence. Qed.

(** DNL *)


Lemma dnl_loop_ok R : forall n pre st f, length pre = n -> (length pre <= f)%nat ->
  readable st = pre ++ 10 :: R -> Forall dnl_byte pre ->
  exists i s, dnl_loop f st = Ok tt (with_stream st i s) /\ readable (with_stream st i s) = R.
Proof.
  induction n as [n IH] using (well_founded_induction lt_wf).
  intros pre st f En Hf Hr Hp. destruct pre as [|c pre'].
  - destruct (getword_single st 10 R Hr eq_refl ltac:(unfold byte_ok; lia) ltac:(lia))
      as (i & s & Hg & Hr'). exists i, s.
    destruct f as [|f]; cbn [dnl_loop]; rewrite (bind_read_token _ _ _ _ Hg); auto.
  - inversion Hp as [|? ? (Hcb & Hc255 & Hc10) Hp']; subst.
    destruct f as [|f]; [simpl in Hf; lia|]. cbn [dnl_loop].
    destruct (is_id_start c) eqn:Hs.
    + destruct (split_ident pre') as (cs & rest & -> & Hcs & [-> | (x & R' & -> & Hx)]).
      * rewrite app_nil_r in *. simpl in Hr.
        destruct (getword_ident st c cs 10 R Hr Hs Hcs eq_refl ltac:(unfold byte_ok; lia) ltac:(lia))
          as (i & s & Hg & Hr').
        rewrite (bind_read_token _ _ _ _ Hg).
        rewrite streq_head_false by (apply id_start_nonzero in Hs; lia || exact Hs).
        destruct (IH 0%nat ltac:(simpl in *; lia) [] (with_stream st i s) f eq_refl ltac:(simpl; lia) Hr' ltac:(constructor))
          as (i' & s' & Hd & Hr''). rewrite with_stream_twice in *. eauto.
      * apply Forall_app in Hp' as [_ Hxr]. inversion Hxr as [|? ? (Hxb & Hx255 & _) _]; subst.
        assert (Hr0 : readable st = c :: cs ++ x :: (R' ++ 10 :: R)) by (rewrite Hr; simpl; rewrite <- app_assoc; reflexivity).
        destruct (getword_ident st c cs x (R' ++ 10 :: R) Hr0 Hs Hcs Hx Hxb Hx255)
          as (i & s & Hg & Hr').
        rewrite (bind_read_token _ _ _ _ Hg).
        rewrite streq_head_false by (apply id_start_nonzero in Hs; lia || exact Hs).
        destruct (IH (length (x :: R')) ltac:(simpl in *; rewrite length_app in *; simpl in *; lia)
                    (x :: R') (with_stream st i s) f eq_refl
                    ltac:(simpl in *; rewrite length_app in *; simpl in *; lia) Hr' Hxr)
          as (i' & s' & Hd & Hr''). rewrite with_stream_twice in *. eauto.
    + destruct (getword_single st c (pre' ++ 10 :: R) Hr Hs Hcb Hc255) as (i & s & Hg & Hr').
      rewrite (bind_read_token _ _ _ _ Hg).
      assert (Hq : streq [c] [10] = false).
      { destruct (Z.eq_dec c 0) as [->|Hc0]; [reflexivity | apply streq_head_false; auto]. }
      rewrite Hq.
      destruct (IH (length pre') ltac:(simpl in *; lia) pre' (with_stream st i s) f eq_refl
                  ltac:(simpl in *; lia) Hr' Hp')
        as (i' & s' & Hd & Hr''). rewrite with_stream_twice in *. eauto.
Qed.

(** X16: [dnl] discards the input up to and including the next newline:
    when the readable bytes are [pre], a newline, then [R], with [pre]
    free of newlines and of 0xFF bytes, [DNL] succeeds and leaves exactly
    [R] to read, changing nothing but the input streams. *)
Theorem DNL_spec st pre R : readable st = pre ++ 10 :: R -> Forall dnl_byte pre ->
  exists i s, DNL st = Ok tt (with_stream st i s) /\ readable (with_stream st i s) = R.
Proof.
  intros Hr Hp. unfold DNL.
  apply (dnl_loop_ok R (length pre) pre st _ eq_refl); auto.
  unfold readable_len. rewrite Hr, length_app. simpl. lia.
Qed.

Lemma DNL_spec_witness :
  exists i s, DNL (start_state (rev (bytes "ab c" ++ [10] ++ bytes "z")) [] false [])
              = Ok tt (with_stream (start_state (rev (bytes "ab c" ++ [10] ++ bytes "z")) [] false []) i s) /\
            readable (with_stream (start_state (rev (bytes "ab c" ++ [10] ++ bytes "z")) [] false []) i s)
              = bytes "z".
Proof.
  apply (DNL_spec _ (bytes "ab c") (bytes "z")).
  - reflexivity.
  - change (Forall dnl_byte [97; 98; 32; 99]). repeat (apply Forall_cons; [unfold dnl_byte, byte_ok; lia|]); apply Forall_nil.
Defined.

(** EAT_WS *)


Lemma eat_ws_loop_ok t R R' : t <> [] -> WS t = false ->
  (forall st', readable st' = R -> exists i s, getword st' = GW_tok t (with_stream st' i s) /\
                                    readable (with_stream st' i s) = R') ->
  forall ws st f, readable st = ws ++ R -> Forall ws_byte ws -> (length ws <= f)%nat ->
  exists i s, eat_ws_loop f st = Ok t (with_stream st i s) /\ readable (with_stream st i s) = R'.
Proof.
  intros Ht Hws Htok. induction ws as [|w ws IH]; intros st f Hr Hw Hf.
  - destruct (Htok st Hr) as (i & s & Hg & Hr'). exists i, s.
    destruct f as [|f]; cbn [eat_ws_loop].
    + unfold read_token. rewrite Hg. auto.
    + rewrite (bind_read_token _ _ _ _ Hg), Hws. auto.
  - inversion Hw as [|? ? Hw0 Hw']; subst. destruct f as [|f]; [simpl in Hf; lia|].
    assert (Hs : is_id_start w = false) by (destruct Hw0 as [-> | [-> | [-> | ->]]]; reflexivity).
    assert (Hb : byte_ok w /\ w <> 255) by (unfold ws_byte, byte_ok in *; lia).
    destruct (getword_single st w (ws ++ R) Hr Hs (proj1 Hb) (proj2 Hb)) as (i & s & Hg & Hr').
    cbn [eat_ws_loop]. rewrite (bind_read_token _ _ _ _ Hg).
    assert (Hw1 : WS [w] = true) by (destruct Hw0 as [-> | [-> | [-> | ->]]]; reflexivity).
    rewrite Hw1. destruct (IH (with_stream st i s) f Hr' Hw' ltac:(simpl in Hf; lia))
      as (i' & s' & He & Hr''). rewrite with_stream_twice in *. eauto.
Qed.

Lemma WS_head_false c t : c <> 0 -> ~ ws_byte c -> WS (c :: t) = false.
Proof.
  intros H0 Hc. unfold WS, ws_byte in *.
  rewrite !streq_head_false by lia. reflexivity.
Qed.

Lemma id_char_push x : is_id_char x = true -> push_ok x.
Proof.
  intros H. pose proof (is_id_char_small x H). unfold push_ok.
  destruct (Z.eq_dec x 0) as [->|]; [discriminate | lia].
Qed.

(** X17: [EAT_WS] skips the spaces, tabs, newlines and carriage returns at
    the front of the input and leaves the rest unread: the first token
    after them is read and pushed back whole, except a NUL byte, which
    [ungetstr] (that stops at the first NUL) does not push back, so it is
    lost.  This holds when the first byte after the whitespace is not
    0xFF and that token is followed by some byte, i.e. it is a single
    non-identifier byte or an identifier ended by a byte other than
    0xFF. *)
Theorem EAT_WS_spec st ws c R : readable st = ws ++ c :: R -> Forall ws_byte ws ->
  0 <= c < 255 -> ~ ws_byte c ->
  (is_id_start c = false \/
   exists cs x R', R = cs ++ x :: R' /\ forallb is_id_char cs = true /\
                   is_id_char x = false /\ byte_ok x /\ x <> 255) ->
  exists i s, EAT_WS st = Ok tt (with_stream st i s) /\
    readable (with_stream st i s) = if c =? 0 then R else c :: R.
Proof.
  intros Hr Hw Hc Hcw Htok. unfold EAT_WS.
  assert (Hf : (length ws <= S (readable_len st))%nat)
    by (unfold readable_len; rewrite Hr, length_app; lia).
  destruct (Z.eq_dec c 0) as [->|Hc0].
  { destruct (eat_ws_loop_ok [0] (0 :: R) R ltac:(discriminate) eq_refl
                (fun st' Hr' => getword_single st' 0 R Hr' eq_refl ltac:(unfold byte_ok; lia) ltac:(lia))
                ws st _ Hr Hw Hf) as (i & s & He & Hr').
    unfold bind. rewrite He. exists i, s. split; [reflexivity | exact Hr']. }
  rewrite (proj2 (Z.eqb_neq c 0) Hc0).
  destruct (is_id_start c) eqn:Hs.
  - destruct Htok as [Hs' | (cs & x & R' & -> & Hcs & Hx & Hxb & Hx255)]; [congruence|].
    assert (Hp : Forall push_ok (c :: cs)).
    { constructor; [apply id_char_push, is_id_start_char, Hs|].
      apply Forall_forall. intros y Hy. apply id_char_push.
      exact (proj1 (forallb_forall _ _) Hcs y Hy). }
    destruct (eat_ws_loop_ok (c :: cs) (c :: cs ++ x :: R') (x :: R') ltac:(discriminate)
                (WS_head_false c cs ltac:(lia) Hcw)
                (fun st' Hr' => getword_ident st' c cs x R' Hr' Hs Hcs Hx Hxb Hx255)
                ws st _ Hr Hw Hf) as (i & s & He & Hr').
    unfold bind. rewrite He.
    destruct (unget_str_ok (c :: cs) (with_stream st i s) Hp) as (st' & Eu & Hru & Hst').
    rewrite Eu.
    assert (Est : st' = with_stream st (input st') s) by (rewrite Hst' at 1; apply set_input_stream).
    exists (input st'), s. rewrite <- Est. split; [reflexivity|]. rewrite Hru, Hr'. reflexivity.
  - destruct (eat_ws_loop_ok [c] (c :: R) R ltac:(discriminate) (WS_head_false c [] ltac:(lia) Hcw)
                (fun st' Hr' => getword_single st' c R Hr' Hs ltac:(unfold byte_ok; lia) ltac:(lia))
                ws st _ Hr Hw Hf) as (i & s & He & Hr').
    unfold bind. rewrite He.
    destruct (unget_str_ok [c] (with_stream st i s) ltac:(constructor; [unfold push_ok; lia | constructor]))
      as (st' & Eu & Hru & Hst').
    rewrite Eu.
    assert (Est : st' = with_stream st (input st') s) by (rewrite Hst' at 1; apply set_input_stream).
    exists (input st'), s. rewrite <- Est. split; [reflexivity|]. rewrite Hru, Hr'. reflexivity.
Qed.

Lemma EAT_WS_spec_witness :
  exists i s, EAT_WS (start_state [] ([32; 9] ++ bytes "ab(") true [])
              = Ok tt (with_stream (start_state [] ([32; 9] ++ bytes "ab(") true []) i s) /\
            readable (with_stream (start_state [] ([32; 9] ++ bytes "ab(") true []) i s) = bytes "ab(".
Proof.
  apply (EAT_WS_spec _ [32; 9] 97 [98; 40]).
  - reflexivity.
  - repeat constructor; unfold ws_byte; lia.
  - lia.
  - unfold ws_byte; lia.
  - right. exists [98], 40, []. repeat split; try reflexivity; unfold byte_ok; lia.
Defined.

(** index / strstr *)

Lemma is_prefix_spec : forall n h, is_prefix n h = true <-> firstn (length n) h = n.
Proof.
  induction n as [|x n IH]; intros h; simpl; [split; reflexivity|].
  destruct h as [|y h]; simpl; [split; discriminate|].
  rewrite andb_true_iff, IH, Z.eqb_eq. split.
  - intros [-> ->]. reflexivity.
  - intros [= -> ->]. auto.
Qed.

Lemma strstr_from_spec needle : forall hay i,
  match strstr_from hay needle i with
  | Some k => (i <= k)%nat /\ (k - i <= length hay)%nat /\
              is_prefix needle (skipn (k - i) hay) = true /\
              forall j, (j < k - i)%nat -> is_prefix needle (skipn j hay) = false
  | None => forall j, (j <= length hay)%nat -> is_prefix needle (skipn j hay) = false
  end.
Proof.
  induction hay as [|x r IH]; intros i; simpl.
  - destruct (is_prefix needle []) eqn:E.
    + rewrite Nat.sub_diag. split; [lia|]. split; [simpl; lia|]. split; [exact E | intros; lia].
    + intros j Hj. assert (j = O) by lia. subst. exact E.
  - destruct (is_prefix needle (x :: r)) eqn:E.
    + rewrite Nat.sub_diag. split; [lia|]. split; [simpl; lia|]. split; [exact E | intros; lia].
    + specialize (IH (S i)). destruct (strstr_from r needle (S i)) as [k|].
      * destruct IH as (H1 & H2 & H3 & H4).
        replace (k - i)%nat with (S (k - S i)) by lia.
        split; [lia|]. split; [simpl; lia|]. split; [exact H3|].
        intros [|j] Hj; [exact E | apply H4; lia].
      * intros [|j] Hj; [exact E | apply IH; simpl in Hj; lia].
Qed.

(** X18: [strstr], as used by [index], returns the first offset at which
    the second string occurs in the first, and [NULL] only when it occurs
    nowhere (an empty second string occurs at offset 0). *)
Theorem strstr_spec hay needle :
  match strstr hay needle with
  | Some i => (i <= length (cstr hay))%nat /\
              firstn (length (cstr needle)) (skipn i (cstr hay)) = cstr needle /\
              forall j, (j < i)%nat -> firstn (length (cstr needle)) (skipn j (cstr hay)) <> cstr needle
  | None => forall j, (j <= length (cstr hay))%nat ->
              firstn (length (cstr needle)) (skipn j (cstr hay)) <> cstr needle
  end.
Proof.
  unfold strstr. pose proof (strstr_from_spec (cstr needle) (cstr hay) 0) as H.
  destruct (strstr_from (cstr hay) (cstr needle) 0) as [k|].
  - rewrite Nat.sub_0_r in H. destruct H as (_ & H2 & H3 & H4).
    split; [exact H2|]. split; [apply is_prefix_spec; exact H3|].
    intros j Hj Heq. apply is_prefix_spec in Heq. rewrite H4 in Heq by lia. discriminate.
  - intros j Hj Heq. apply is_prefix_spec in Heq. rewrite H in Heq by exact Hj. discriminate.
Qed.

(** changequote *)

Lemma dispatch_changequote m st : cstr (m_name m) = bytes "changequote" ->
  bi_with_args m st =
  (let a1 := schar (hd 0 (ARG m 1)) in let a2 := schar (hd 0 (ARG m 2)) in
   if negb (Nat.eqb (length (ARG m 1)) 1) || negb (Nat.eqb (length (ARG m 2)) 1) || (a1 =? a2)
      || negb (isgraph a1) || negb (isgraph a2)
      || (a1 =? 40) || (a2 =? 40) || (a1 =? 41) || (a2 =? 41)
      || (a1 =? 44) || (a2 =? 44) then
     equit ("changequote: quotes must be different single graph chars"
            ++ " that cannot a comma or parentheses")
   else modify (fun st => set_quotes st (to_char a1) (to_char a2))) st.
Proof. intros H. unfold bi_with_args, is, streq. rewrite H. reflexivity. Qed.

Lemma single_graph s : Forall byte_ok s -> length s = 1%nat -> isgraph (schar (hd 0 s)) = true ->
  s = [hd 0 s] /\ schar (hd 0 s) = hd 0 s /\ to_char (schar (hd 0 s)) = hd 0 s.
Proof.
  intros Hb Hl Hg. destruct s as [|b [|? ?]]; simpl in Hl; try lia. simpl in *.
  inversion Hb as [|? ? Hb0 _]; subst.
  assert (Hs : schar b = b).
  { unfold schar in *. destruct (Z.leb_spec 128 b); [|reflexivity].
    unfold isgraph in Hg. apply andb_prop in Hg as [H1 _]. apply Z.leb_le in H1. unfold byte_ok in Hb0. lia. }
  rewrite Hs, to_char_id by exact Hb0. auto.
Qed.

(** X19: a [changequote] call that succeeds changes nothing but the quote
    characters, and the new quotes are its two one-byte arguments: two
    different printable non-space characters, neither a parenthesis nor a
    comma. *)
Theorem changequote_spec m st st' : cstr (m_name m) = bytes "changequote" -> args_ok m ->
  bi_with_args m st = Ok tt st' ->
  st' = set_quotes st (left_quote st') (right_quote st') /\
  ARG m 1 = [left_quote st'] /\ ARG m 2 = [right_quote st'] /\
  left_quote st' <> right_quote st' /\
  isgraph (left_quote st') = true /\ isgraph (right_quote st') = true /\
  ~ In (left_quote st') [40; 41; 44] /\ ~ In (right_quote st') [40; 41; 44].
Proof.
  intros Hn Ha. rewrite dispatch_changequote by exact Hn. cbv zeta.
  destruct (Nat.eqb_spec (length (ARG m 1)) 1) as [L1|]; [|discriminate].
  destruct (Nat.eqb_spec (length (ARG m 2)) 1) as [L2|]; [|discriminate].
  destruct (Z.eqb_spec (schar (hd 0 (ARG m 1))) (schar (hd 0 (ARG m 2)))); [discriminate|].
  destruct (isgraph (schar (hd 0 (ARG m 1)))) eqn:G1; [|discriminate].
  destruct (isgraph (schar (hd 0 (ARG m 2)))) eqn:G2; [|discriminate].
  cbn [negb orb].
  destruct (Z.eqb_spec (schar (hd 0 (ARG m 1))) 40); [discriminate|].
  destruct (Z.eqb_spec (schar (hd 0 (ARG m 2))) 40); [discriminate|].
  destruct (Z.eqb_spec (schar (hd 0 (ARG m 1))) 41); [discriminate|].
  destruct (Z.eqb_spec (schar (hd 0 (ARG m 2))) 41); [discriminate|].
  destruct (Z.eqb_spec (schar (hd 0 (ARG m 1))) 44); [discriminate|].
  destruct (Z.eqb_spec (schar (hd 0 (ARG m 2))) 44); [discriminate|].
  intros [= <-].
  destruct (single_graph _ (ARG_ok m 1 Ha) L1 G1) as (E1 & S1 & T1).
  destruct (single_graph _ (ARG_ok m 2 Ha) L2 G2) as (E2 & S2 & T2).
  simpl. rewrite T1, T2. rewrite S1 in *. rewrite S2 in *.
  split; [destruct st; reflexivity|].
  split; [exact E1|]. split; [exact E2|]. split; [assumption|].
  split; [exact G1|]. split; [exact G2|].
  split; simpl; intuition lia.
Qed.

Lemma changequote_spec_witness :
  ARG (mk_mcall (bytes "changequote") None 0 2 [None; Some (bytes "["); Some (bytes "]")]) 1 =
    [left_quote (set_quotes (start_state [] [] true []) 91 93)].
Proof.
  apply (changequote_spec (mk_mcall (bytes "changequote") None 0 2 [None; Some (bytes "["); Some (bytes "]")])
           (start_state [] [] true []) (set_quotes (start_state [] [] true []) 91 93) eq_refl
           ltac:(repeat constructor; unfold byte_ok; lia)).
  reflexivity.
Defined.

Lemma dispatch_divert m st : cstr (m_name m) = bytes "divert" ->
  bi_with_args m st =
  (if single_digit (ARG m 1) then modify (fun st => set_act_div st (hd 0 (ARG m 1) - 48))
   else if is (ARG m 1) "-1" then modify (fun st => set_act_div st 10)
   else equit "divert: Diversion number must be 0 to 9 or -1") st.
Proof. intros H. unfold bi_with_args, is, streq. rewrite H. reflexivity. Qed.

Lemma ARG_cstr m k : cstr (ARG m k) = ARG m k.
Proof. unfold ARG. destruct (arg_buf m k); [apply cstr_idem | reflexivity]. Qed.

Lemma single_digit_ARG m : args_ok m -> single_digit (ARG m 1) = true ->
  exists d, 0 <= d <= 9 /\ ARG m 1 = [48 + d].
Proof.
  intros Ha Hs. unfold single_digit in Hs. rewrite ARG_cstr in Hs.
  pose proof (ARG_ok m 1 Ha) as Hb.
  destruct (ARG m 1) as [|c [|? ?]]; try discriminate.
  inversion Hb as [|? ? Hc _]; subst. unfold byte_ok in Hc.
  exists (c - 48). unfold isdigit, schar in Hs. destruct (Z.leb_spec 128 c);
    apply andb_prop in Hs as [H1 H2]; apply Z.leb_le in H1; apply Z.leb_le in H2;
    (split; [lia | f_equal; lia]).
Qed.

(** X20: [divert(d)] with a digit [d] selects diversion [d], [divert(-1)]
    selects the discarding diversion 10, and any other argument is a fatal
    error (the message "divert: Diversion number must be 0 to 9 or -1" on
    stderr, then [QUIT]); so a successful [divert] always leaves the
    active diversion in [0, 10]. *)
Theorem divert_spec m st : cstr (m_name m) = bytes "divert" -> args_ok m ->
  (forall d, 0 <= d <= 9 -> ARG m 1 = [48 + d] -> bi_with_args m st = Ok tt (set_act_div st d)) /\
  (ARG m 1 = bytes "-1" -> bi_with_args m st = Ok tt (set_act_div st 10)) /\
  ((forall d, 0 <= d <= 9 -> ARG m 1 <> [48 + d]) -> ARG m 1 <> bytes "-1" ->
   bi_with_args m st =
     Quit (set_stderr st (stderr st ++ bytes "divert: Diversion number must be 0 to 9 or -1" ++ [10]))) /\
  (forall st', bi_with_args m st = Ok tt st' -> 0 <= act_div st' <= 10).
Proof.
  intros Hn Ha. rewrite dispatch_divert by exact Hn. split; [|split; [|split]].
  - intros d Hd E. rewrite E. remember (48 + d) as c eqn:Ec.
    assert (Hsd : single_digit [c] = true).
    { unfold single_digit. simpl. destruct (Z.eqb_spec c 0); [lia|].
      unfold isdigit. rewrite schar_small by lia.
      apply andb_true_intro; split; apply Z.leb_le; lia. }
    rewrite Hsd. unfold modify. cbn [hd]. replace (c - 48) with d by lia. reflexivity.
  - intros E. rewrite E. reflexivity.
  - intros Hnd Hnm. destruct (single_digit (ARG m 1)) eqn:Hs.
    + destruct (single_digit_ARG m Ha Hs) as (d & Hd & E). exfalso. exact (Hnd d Hd E).
    + destruct (is (ARG m 1) "-1") eqn:Hi; [|reflexivity].
      exfalso. apply Hnm. unfold is in Hi. apply streq_spec in Hi. rewrite ARG_cstr in Hi. exact Hi.
  - intros st'. destruct (single_digit (ARG m 1)) eqn:Hs.
    + intros [= <-]. unfold single_digit in Hs. rewrite ARG_cstr in Hs.
      pose proof (ARG_ok m 1 Ha) as Hb.
      destruct (ARG m 1) as [|c [|? ?]]; try discriminate. simpl.
      inversion Hb as [|? ? Hc _]; subst. unfold byte_ok in Hc.
      unfold isdigit, schar in Hs. destruct (Z.leb_spec 128 c);
        apply andb_prop in Hs as [H1 H2]; apply Z.leb_le in H1; apply Z.leb_le in H2; destruct st; simpl; lia.
    + destruct (is (ARG m 1) "-1"); [intros [= <-]; destruct st; simpl; lia | discriminate].
Qed.

Lemma divert_spec_witness :
  bi_with_args (mk_mcall (bytes "divert") None 0 1 [None; Some (bytes "3")]) (start_state [] [] true [])
    = Ok tt (set_act_div (start_state [] [] true []) 3).
Proof.
  apply (proj1 (divert_spec (mk_mcall (bytes "divert") None 0 1 [None; Some (bytes "3")])
                  (start_state [] [] true []) eq_refl ltac:(repeat constructor; unfold byte_ok; lia)) 3);
    [lia | reflexivity].
Defined.
